(** * Face-gated vehicle start controller: capture gate, matcher, ignition
      state and authorization handshake

    Shallow embedding of the decision logic of [f6.py], the strictest and
    most complete of the near-duplicate scripts, with the match test of
    [2.py] and the capture loop, match test and POST /authorize of
    [final2.py] alongside for comparison.

    Modelling conventions.
    - Python integers are [Z]; loop counters are [nat].
    - A floating-point value is the rational [Q] it denotes.  The
      arithmetic of the match test, [(1 - face_distance) * 100] and its
      literals, is binary64: every operation and every literal is rounded
      to the nearest 53-bit value, ties to even ([round64]), with an
      unbounded exponent (no overflow, no subnormal numbers, no NaN).
    - The quantities of the capture gate (mean brightness, eye-line angle,
      centring offsets) are exact rationals.  The centring offsets are
      quotients of pixel counts, for which the comparison against [0.2]
      agrees with the rational one for every frame smaller than 2^50
      pixels a side.
    - Console output and the dashboard log ([server_logs], [last_log_time])
      are left out, except for the audit trail printed by [compare_faces].
    - The camera, the capture directory, the SMS gateway and the motor pins
      are part of an explicit [State]; what the environment supplies
      (frames, sensor readings, face encodings) is passed as arguments.
    - [os.remove] of a file that exists succeeds; the [except] branches
      around it, which only print, are left out.
    - The worker thread of a request runs to completion before the next
      request; the motor thread is interleaved with stop commands one
      statement at a time. *)

From Stdlib Require Import ZArith QArith Qabs Qround Qpower List Bool String
  Lia Arith.
From Stdlib Require Import Permutation Sorting.Mergesort Sorting.Sorted Orders
  OrdersEx Lqa.
Import ListNotations.
Local Open Scope string_scope.
Local Open Scope list_scope.

Set Implicit Arguments.

(** ** Rational comparisons as booleans *)

Definition Qltb (a b : Q) : bool := negb (Qle_bool b a).

(** ** Camera frames as the quality gate measures them *)

(** A face box in the (top, right, bottom, left) order of
    [face_recognition.face_locations]. *)
Record Face := mkFace { top : Z; right : Z; bottom : Z; left : Z }.

Record Frame := mkFrame {
  frame_width : Z;              (* frame.shape[1] *)
  frame_height : Z;             (* frame.shape[0] *)
  brightness : Q;               (* np.mean(gray_frame) *)
  face_locations : list Face;   (* in detection order *)
  eye_angle : option Q          (* None when face_landmarks is empty, else
                                   arctan2(dy, dx) * 180 / pi of the eyes *)
}.

(** One pass of the attempt loop sees the result of [camera.retrieve()] and
    whether [cv2.imwrite] managed to put the file on disk. *)
Record Shot := mkShot {
  retrieved : option Frame;     (* None: not ret or frame is None *)
  write_ok : bool
}.

(** ** The capture directory *)

Record CapFile := mkCapFile { path : string; ctime : Z }.

(** The files matching [captured_face_*.png], in directory order. *)
Definition Disk := list CapFile.

Definition glob (d : Disk) : list string := map path d.

Definition os_path_exists (p : string) (d : Disk) : bool :=
  existsb (String.eqb p) (glob d).

Definition unlink (p : string) (d : Disk) : Disk :=
  filter (fun f => negb (String.eqb p (path f))) d.

(** [cv2.imwrite]: a successful write creates the file or replaces it. *)
Definition imwrite (p : string) (now : Z) (ok : bool) (d : Disk) : Disk :=
  if ok then unlink p d ++ [mkCapFile p now] else d.

(** Python compares path names character by character. *)
Module StringOrder <: TotalLeBool.
Definition t := string.
Definition leb (a b : string) : bool :=
  match String_as_OT.compare a b with
  | Gt => false
  | _ => true
  end.
Theorem leb_total : forall a1 a2, leb a1 a2 = true \/ leb a2 a1 = true.
Proof.
  intros a b. unfold leb.
  destruct (String_as_OT.compare_spec a b) as [E|L|G]; auto.
  right. unfold String_as_OT.lt in G. now rewrite G.
Qed.
End StringOrder.

Module StringSort := Sort StringOrder.

(** Python's [sorted] on a list of path names. *)
Definition sorted (l : list string) : list string := StringSort.sort l.

(** Python's [l[:-1]]. *)
Definition all_but_last (l : list string) : list string := removelast l.

(** ** Process-wide state

    The module globals of the script, the camera, the capture directory and
    the traffic to the outside world. *)

Inductive Sms :=
| VehicleStarted          (* send_sms *)
| UnauthorizedAttempt.    (* send_image_to_owner *)

Record State := mkState {
  motor_running : bool;
  vehicle_stopped : bool;
  pending_authorization : bool;
  sms_sent_for_current_attempt : bool;
  face_recognition_active : bool;
  camera_lock : bool;               (* true while some [with] holds it *)
  camera_opened : bool;             (* camera.isOpened() *)
  disk : Disk;
  motor_threads : nat;              (* step_motor_continuous threads started *)
  pins : list (list Z);             (* set_step calls, oldest first *)
  sms : list Sms                    (* messages posted, oldest first *)
}.

Definition set_motor_running (b : bool) (s : State) : State :=
  mkState b (vehicle_stopped s) (pending_authorization s)
    (sms_sent_for_current_attempt s) (face_recognition_active s)
    (camera_lock s) (camera_opened s) (disk s) (motor_threads s) (pins s)
    (sms s).
Definition set_vehicle_stopped (b : bool) (s : State) : State :=
  mkState (motor_running s) b (pending_authorization s)
    (sms_sent_for_current_attempt s) (face_recognition_active s)
    (camera_lock s) (camera_opened s) (disk s) (motor_threads s) (pins s)
    (sms s).
Definition set_pending_authorization (b : bool) (s : State) : State :=
  mkState (motor_running s) (vehicle_stopped s) b
    (sms_sent_for_current_attempt s) (face_recognition_active s)
    (camera_lock s) (camera_opened s) (disk s) (motor_threads s) (pins s)
    (sms s).
Definition set_sms_sent (b : bool) (s : State) : State :=
  mkState (motor_running s) (vehicle_stopped s) (pending_authorization s)
    b (face_recognition_active s)
    (camera_lock s) (camera_opened s) (disk s) (motor_threads s) (pins s)
    (sms s).
Definition set_face_recognition_active (b : bool) (s : State) : State :=
  mkState (motor_running s) (vehicle_stopped s) (pending_authorization s)
    (sms_sent_for_current_attempt s) b
    (camera_lock s) (camera_opened s) (disk s) (motor_threads s) (pins s)
    (sms s).
Definition set_camera_lock (b : bool) (s : State) : State :=
  mkState (motor_running s) (vehicle_stopped s) (pending_authorization s)
    (sms_sent_for_current_attempt s) (face_recognition_active s)
    b (camera_opened s) (disk s) (motor_threads s) (pins s) (sms s).
Definition set_camera_opened (b : bool) (s : State) : State :=
  mkState (motor_running s) (vehicle_stopped s) (pending_authorization s)
    (sms_sent_for_current_attempt s) (face_recognition_active s)
    (camera_lock s) b (disk s) (motor_threads s) (pins s) (sms s).
Definition set_disk (d : Disk) (s : State) : State :=
  mkState (motor_running s) (vehicle_stopped s) (pending_authorization s)
    (sms_sent_for_current_attempt s) (face_recognition_active s)
    (camera_lock s) (camera_opened s) d (motor_threads s) (pins s) (sms s).

(** [threading.Thread(target=step_motor_continuous, ...).start()] *)
Definition start_motor_thread (s : State) : State :=
  mkState (motor_running s) (vehicle_stopped s) (pending_authorization s)
    (sms_sent_for_current_attempt s) (face_recognition_active s)
    (camera_lock s) (camera_opened s) (disk s) (S (motor_threads s)) (pins s)
    (sms s).

Definition set_step (w : list Z) (s : State) : State :=
  mkState (motor_running s) (vehicle_stopped s) (pending_authorization s)
    (sms_sent_for_current_attempt s) (face_recognition_active s)
    (camera_lock s) (camera_opened s) (disk s) (motor_threads s)
    (pins s ++ [w]) (sms s).

Definition post_sms (m : Sms) (s : State) : State :=
  mkState (motor_running s) (vehicle_stopped s) (pending_authorization s)
    (sms_sent_for_current_attempt s) (face_recognition_active s)
    (camera_lock s) (camera_opened s) (disk s) (motor_threads s) (pins s)
    (sms s ++ [m]).

Definition os_remove (p : string) (s : State) : State :=
  set_disk (unlink p (disk s)) s.

(** ** Outcomes of a call

    A call returns, raises, blocks for ever on the non-reentrant
    [camera_lock], or is still inside a polling loop when the supplied
    observations run out. *)

Inductive Res (A : Type) :=
| Ret (a : A) (s : State)
| Exn (s : State)
| Deadlock (s : State)
| Looping (s : State).

Arguments Exn {A} s.
Arguments Deadlock {A} s.
Arguments Looping {A} s.

Definition M (A : Type) : Type := State -> Res A.

Definition ret {A} (a : A) : M A := fun s => Ret a s.

Definition bind {A B} (m : M A) (k : A -> M B) : M B := fun s =>
  match m s with
  | Ret a s' => k a s'
  | Exn s' => Exn s'
  | Deadlock s' => Deadlock s'
  | Looping s' => Looping s'
  end.

Definition modify (f : State -> State) : M unit := fun s => Ret tt (f s).
Definition gets {A} (f : State -> A) : M A := fun s => Ret (f s) s.

Declare Scope py_scope.
Delimit Scope py_scope with py.
Notation "x <- m ;; k" := (bind m (fun x => k))
  (at level 61, m at next level, right associativity) : py_scope.
Notation "m ;;; k" := (bind m (fun _ => k))
  (at level 61, right associativity) : py_scope.

(** [with camera_lock: body].  [threading.Lock] is not reentrant: acquiring
    it while it is held blocks.  The lock is released on return and on an
    exception.  Calls are run one after another, each to its end, so a lock
    found held is held by the caller itself or by an earlier call that is
    blocked, and is never released: waiting for a holder that is still at
    work is not modelled. *)
Definition with_camera_lock {A} (body : M A) : M A := fun s =>
  if camera_lock s then Deadlock s
  else match body (set_camera_lock true s) with
  | Ret a s' => Ret a (set_camera_lock false s')
  | Exn s' => Exn (set_camera_lock false s')
  | Deadlock s' => Deadlock s'
  | Looping s' => Looping s'
  end.

(** The final state of a call, whatever its outcome. *)
Definition state_of {A} (r : Res A) : State :=
  match r with
  | Ret _ s | Exn s | Deadlock s | Looping s => s
  end.

(** ** Walking the reference encodings

    [compare_faces] has the same loop in every variant; the variants differ
    in the test applied to the distance. *)

Inductive Audit :=
| ImageNotFound
| NoFaceFound
| Comparing (image_path : string)
| StrongMatch (face_distance confidence : Q)
| NoMatch (face_distance confidence : Q)
| NoStrongMatches.

(** ** Binary64 arithmetic

    The nearest integer, ties to even. *)
Definition rne (x : Q) : Z :=
  let f := Qfloor x in
  match Qcompare (x - inject_Z f) (1 # 2) with
  | Lt => f
  | Gt => (f + 1)%Z
  | Eq => if Z.even f then f else (f + 1)%Z
  end.

(** The exponent [k] with [2^k <= x < 2^(k+1)], for a positive [x]. *)
Definition binade (x : Q) : Z :=
  let k := (Z.log2 (Qnum x) - Z.log2 (Zpos (Qden x)))%Z in
  if Qle_bool (2 ^ k) x then k else (k - 1)%Z.

(** A positive number rounded to 53 significant bits. *)
Definition round_pos (x : Q) : Q :=
  let e := (binade x - 52)%Z in
  (inject_Z (rne (x / 2 ^ e)) * 2 ^ e)%Q.

(** The float nearest to [x]: the value of a literal, and the result of an
    operation whose exact result is [x]. *)
Definition round64 (x : Q) : Q :=
  match Qnum x with
  | Z0 => 0
  | Zpos _ => round_pos x
  | Zneg _ => (- round_pos (- x))%Q
  end.

(** [confidence = (1 - face_distance) * 100] *)
Definition confidence (face_distance : Q) : Q :=
  round64 (round64 (1 - face_distance) * 100).

Section References.
Variable Encoding : Type.
(** [face_recognition.face_distance([ref_encoding], captured_encoding)[0]] *)
Variable face_distance : Encoding -> Encoding -> Q.
Variable is_match : Q -> bool.

(** [for image_path, ref_encoding in reference_encodings: ...] followed by
    the [return False] after the loop. *)
Fixpoint compare_with (reference_encodings : list (string * Encoding))
    (captured_encoding : Encoding) : bool * list Audit :=
  match reference_encodings with
  | [] => (false, [NoStrongMatches])
  | (image_path, ref_encoding) :: rest =>
    let d := face_distance ref_encoding captured_encoding in
    if is_match d
    then (true, [Comparing image_path; StrongMatch d (confidence d)])
    else let (found, trail) := compare_with rest captured_encoding in
         (found, Comparing image_path :: NoMatch d (confidence d) :: trail)
  end.
End References.

(** The references the audit trail says were looked at, in order. *)
Fixpoint examined (trail : list Audit) : list string :=
  match trail with
  | [] => []
  | Comparing p :: rest => p :: examined rest
  | _ :: rest => examined rest
  end.

(** [max(glob(...), key=os.path.getctime, default=None)]: the first file
    in directory order among those with the greatest creation time. *)
Fixpoint latest (d : Disk) : option CapFile :=
  match d with
  | [] => None
  | f :: rest =>
    match latest rest with
    | None => Some f
    | Some g => if (ctime f <? ctime g)%Z then Some g else Some f
    end
  end.

Inductive Request :=
| GET
| POST (action : option string).    (* request.form.get('action') *)

Inductive Response :=
| Redirect (url : string)
| AuthorizePage.

Inductive SensorWait := Detected | Cancelled | StillWaiting.

(** ** The quality gate of [capture_image_with_face] (f6.py, second
    definition, which replaces the first when the module is loaded) *)

Inductive Rejection :=
| TooDark | NoFace | TooSmall | NotCentered | MultipleFaces | Rotated.

Inductive Verdict :=
| Good
| Reject (r : Rejection)
| ZeroDivision.     (* frame_center_x or frame_center_y is 0 *)

Module F6.

Definition REFERENCE_IMAGE_DIR : string := "/home/mrd/Desktop".

Definition max_retries : nat := 10.
Definition min_face_size : Z := 150.
Definition min_brightness : Q := 50.

Definition face_width (f : Face) : Z := right f - left f.
Definition face_height (f : Face) : Z := bottom f - top f.
Definition face_center_x (f : Face) : Z := (left f + right f) / 2.
Definition face_center_y (f : Face) : Z := (top f + bottom f) / 2.
Definition frame_center_x (fr : Frame) : Z := frame_width fr / 2.
Definition frame_center_y (fr : Frame) : Z := frame_height fr / 2.

(** [abs(face_center - frame_center) / frame_center], for a non-zero
    frame centre. *)
Definition x_offset (fr : Frame) (f : Face) : Q :=
  inject_Z (Z.abs (face_center_x f - frame_center_x fr))
  / inject_Z (frame_center_x fr).
Definition y_offset (fr : Frame) (f : Face) : Q :=
  inject_Z (Z.abs (face_center_y f - frame_center_y fr))
  / inject_Z (frame_center_y fr).

(** The checks of one loop pass between [camera.retrieve()] and
    [cv2.imwrite], in source order. *)
Definition inspect (fr : Frame) : Verdict :=
  if Qltb (brightness fr) min_brightness then Reject TooDark else
  match face_locations fr with
  | [] => Reject NoFace
  | f :: others =>
    if (face_width f <? min_face_size)%Z || (face_height f <? min_face_size)%Z
    then Reject TooSmall
    else if (frame_center_x fr =? 0)%Z || (frame_center_y fr =? 0)%Z
    then ZeroDivision
    else if Qltb (2 # 10) (x_offset fr f) || Qltb (2 # 10) (y_offset fr f)
    then Reject NotCentered
    else match others with
    | _ :: _ => Reject MultipleFaces
    | [] =>
      match eye_angle fr with
      | Some a => if Qltb 15 (Qabs a) then Reject Rotated else Good
      | None => Good
      end
    end
  end.

Inductive LoopExit :=
| ReturnedPath      (* return captured_image_path *)
| ReturnedNone      (* the loop condition failed: return None *)
| Raised            (* ZeroDivisionError leaves the function *)
| StillLooping.     (* every supplied shot was used and the loop goes on *)

Record LoopRun := mkLoopRun {
  exit : LoopExit;
  iterations : nat;       (* passes through the loop body *)
  retries : nat;          (* final value of retry_count *)
  disk_after : Disk
}.

(** [while retry_count < max_retries: ...], one shot per pass. *)
Fixpoint attempt_loop (captured_image_path : string) (now : Z)
    (retry_count : nat) (shots : list Shot) (d : Disk) (passes : nat)
    : LoopRun :=
  if (max_retries <=? retry_count)%nat
  then mkLoopRun ReturnedNone passes retry_count d
  else match shots with
  | [] => mkLoopRun StillLooping passes retry_count d
  | sh :: rest =>
    match retrieved sh with
    | None =>
      attempt_loop captured_image_path now (S retry_count) rest d (S passes)
    | Some fr =>
      match inspect fr with
      | ZeroDivision => mkLoopRun Raised (S passes) retry_count d
      | Reject _ =>
        attempt_loop captured_image_path now retry_count rest d (S passes)
      | Good =>
        let d' := imwrite captured_image_path now (write_ok sh) d in
        if os_path_exists captured_image_path d'
        then mkLoopRun ReturnedPath (S passes) retry_count d'
        else attempt_loop captured_image_path now (S retry_count) rest d'
               (S passes)
      end
    end
  end.

(** The shot that made the loop return a path, if it did. *)
Definition returned_frame (shots : list Shot) (r : LoopRun) : option Frame :=
  match exit r with
  | ReturnedPath =>
    match nth_error shots (pred (iterations r)) with
    | Some sh => retrieved sh
    | None => None
    end
  | _ => None
  end.

(** How a pass through the loop body ends, read off the shot it used. *)
Definition read_failed (sh : Shot) : bool :=
  match retrieved sh with
  | None => true
  | Some _ => false
  end.

Definition quality_rejected (sh : Shot) : bool :=
  match retrieved sh with
  | Some fr =>
    match inspect fr with
    | Reject _ => true
    | _ => false
    end
  | None => false
  end.

(** The pass that leaves the loop by [return] or by an exception. *)
Definition final_pass (e : LoopExit) : nat :=
  match e with
  | ReturnedPath | Raised => 1
  | ReturnedNone | StillLooping => 0
  end.

(** [os.path.join(REFERENCE_IMAGE_DIR, f"captured_face_{timestamp}.png")] *)
Definition capture_path (timestamp : string) : string :=
  (REFERENCE_IMAGE_DIR ++ "/captured_face_" ++ timestamp ++ ".png")%string.

(** Remove every earlier capture except the last in name order. *)
Definition cleanup (d : Disk) : Disk :=
  fold_left (fun d' old_img => unlink old_img d')
            (all_but_last (sorted (glob d))) d.

Section Env.
Variable Encoding : Type.
Variable face_distance : Encoding -> Encoding -> Q.
(** Loaded once when the script starts. *)
Variable reference_encodings : list (string * Encoding).
(** Whether [cv2.VideoCapture(i)] opens. *)
Variable device_opens : nat -> bool.

Definition initialize_camera : M bool :=
  with_camera_lock (fun s =>
    let opened := existsb device_opens (seq 0 3) in
    Ret opened (set_camera_opened opened s)).

(** [if not camera.isOpened(): if not initialize_camera(): ...], giving
    whether the camera is usable afterwards. *)
Definition ensure_camera : M bool :=
  (opened <- gets camera_opened ;;
   if opened then ret true else initialize_camera)%py.

Definition capture_image_with_face (timestamp : string) (now : Z)
    (shots : list Shot) : M (option string) :=
  let captured_image_path := capture_path timestamp in
  (modify (fun s => set_disk (cleanup (disk s)) s) ;;;
   with_camera_lock
     (ok <- ensure_camera ;;
      if negb ok then ret None else
      fun s =>
        let r := attempt_loop captured_image_path now 0 shots (disk s) 0 in
        let s' := set_disk (disk_after r) s in
        match exit r with
        | ReturnedPath => Ret (Some captured_image_path) s'
        | ReturnedNone => Ret None s'
        | Raised => Exn s'
        | StillLooping => Looping s'
        end))%py.

(** [face_distance < 0.4 and confidence > 80] *)
Definition is_match (d : Q) : bool :=
  Qltb d (round64 (4 # 10)) && Qltb 80 (confidence d).

(** The two floats between which the test changes its answer:
    0.19999999999999987 and 0.1999999999999999, the fifth and the fourth
    float below the float 0.2. *)
Definition last_accepted : Q := 7205759403792789 # 36028797018963968.
Definition first_rejected : Q := 7205759403792790 # 36028797018963968.

Definition compare_faces (captured_image_path : string)
    (captured_encodings : list Encoding) (d : Disk) : bool * list Audit :=
  if negb (os_path_exists captured_image_path d)
  then (false, [ImageNotFound])
  else match captured_encodings with
  | [] => (false, [NoFaceFound])
  | captured_encoding :: _ =>
    compare_with face_distance is_match reference_encodings
      captured_encoding
  end.

Definition stop_motor : M unit :=
  (modify (set_motor_running false) ;;;
   modify (set_vehicle_stopped true) ;;;
   modify (set_face_recognition_active false) ;;;
   modify (set_step [0; 0; 0; 0]%Z) ;;;
   with_camera_lock (_ <- ensure_camera ;; ret tt))%py.

(** [while IR_SENSOR.value: if not face_recognition_active: return].
    A reading of [true] means no finger yet. *)
Fixpoint wait_for_sensor (active : bool) (readings : list bool)
    : SensorWait :=
  match readings with
  | [] => StillWaiting
  | value :: rest =>
    if value
    then if active then wait_for_sensor active rest else Cancelled
    else Detected
  end.

(** What one start attempt meets: sensor readings, the clock, the camera
    and the encodings found in the saved capture. *)
Record Attempt := mkAttempt {
  readings : list bool;
  timestamp : string;
  now : Z;
  shots : list Shot;
  captured_encodings : list Encoding
}.

Definition start_vehicle_with_face (a : Attempt) : M unit :=
  (active <- gets face_recognition_active ;;
   if negb active then ret tt else
   ok <- with_camera_lock ensure_camera ;;
   if negb ok then ret tt else
   stopped <- gets vehicle_stopped ;;
   if negb stopped then ret tt else
   active <- gets face_recognition_active ;;
   match wait_for_sensor active (readings a) with
   | StillWaiting => fun s => Looping s
   | Cancelled => ret tt
   | Detected =>
     captured <- capture_image_with_face (timestamp a) (now a) (shots a) ;;
     match captured with
     | None => ret tt
     | Some captured_image_path =>
       d <- gets disk ;;
       let (match_found, _) :=
         compare_faces captured_image_path (captured_encodings a) d in
       if match_found
       then modify (os_remove captured_image_path) ;;;
            modify start_motor_thread ;;;
            modify (set_vehicle_stopped false) ;;;
            modify (post_sms VehicleStarted) ;;;
            modify (set_sms_sent false)
       else sent <- gets sms_sent_for_current_attempt ;;
            (if negb sent
             then modify (post_sms UnauthorizedAttempt) ;;;
                  modify (set_sms_sent true)
             else ret tt) ;;;
            modify (set_pending_authorization true)
     end
   end)%py.

(** GET /start_vehicle.  The worker thread is run to completion. *)
Definition start_motor_web (a : Attempt) : M unit :=
  (modify (set_face_recognition_active true) ;;;
   start_vehicle_with_face a)%py.

(** [if latest_image and os.path.exists(latest_image): os.remove(...)] *)
Definition remove_latest (latest_image : option CapFile) : M unit :=
  match latest_image with
  | None => ret tt
  | Some f =>
    (d <- gets disk ;;
     if os_path_exists (path f) d then modify (os_remove (path f))
     else ret tt)%py
  end.

(** The route /authorize. *)
Definition authorize (req : Request) : M Response :=
  (d <- gets disk ;;
   let latest_image := latest d in
   match req with
   | POST action =>
     match action with
     | Some a =>
       if String.eqb a "yes"
       then remove_latest latest_image ;;;
            modify start_motor_thread ;;;
            modify (set_vehicle_stopped false) ;;;
            modify (post_sms VehicleStarted) ;;;
            modify (set_pending_authorization false) ;;;
            modify (set_sms_sent false) ;;;
            ret (Redirect "/")
       else if String.eqb a "no"
       then remove_latest latest_image ;;;
            modify (set_pending_authorization false) ;;;
            modify (set_sms_sent false) ;;;
            ret (Redirect "/")
       else ret (Redirect "/")
     | None => ret (Redirect "/")
     end
   | GET =>
     pending <- gets pending_authorization ;;
     match latest_image with
     | Some f =>
       if pending && os_path_exists (path f) d
       then ret AuthorizePage else ret (Redirect "/")
     | None => ret (Redirect "/")
     end
   end)%py.

(** *** The motor thread, one statement at a time *)

Definition step_sequence : list (list Z) :=
  [ [1; 0; 0; 0]; [1; 1; 0; 0]; [0; 1; 0; 0]; [0; 1; 1; 0];
    [0; 0; 1; 0]; [0; 0; 1; 1]; [0; 0; 0; 1]; [1; 0; 0; 1] ]%Z.

Inductive MotorPC :=
| Entry               (* motor_running = True *)
| WhileTest           (* while motor_running: *)
| ForNext (i : nat)   (*   for step in step_sequence: *)
| BreakTest (i : nat) (*     if not motor_running: break *)
| SetStep (i : nat)   (*     set_step( *step ) *)
| Sleep (i : nat)     (*     sleep(delay / 0.0001) *)
| CallStop            (* stop_motor() *)
| Finished.

(** One statement of [step_motor_continuous]; the [nat] counts the step
    patterns written to the pins by that statement. *)
Definition motor_step (pc : MotorPC) (s : State) : MotorPC * State * nat :=
  match pc with
  | Entry => (WhileTest, set_motor_running true s, 0%nat)
  | WhileTest =>
    if motor_running s then (ForNext 0, s, 0%nat) else (CallStop, s, 0%nat)
  | ForNext i =>
    match nth_error step_sequence i with
    | Some _ => (BreakTest i, s, 0%nat)
    | None => (WhileTest, s, 0%nat)
    end
  | BreakTest i =>
    if motor_running s then (SetStep i, s, 0%nat) else (WhileTest, s, 0%nat)
  | SetStep i => (Sleep i, set_step (nth i step_sequence []) s, 1%nat)
  | Sleep i => (ForNext (S i), s, 0%nat)
  | CallStop => (Finished, state_of (stop_motor s), 0%nat)
  | Finished => (Finished, s, 0%nat)
  end.

(** Who runs next: the motor thread, or a request handler calling
    [stop_motor]. *)
Inductive Turn := MotorTurn | StopCommand.

Fixpoint interleave (sched : list Turn) (pc : MotorPC) (s : State)
    : MotorPC * State * nat :=
  match sched with
  | [] => (pc, s, 0%nat)
  | MotorTurn :: rest =>
    let '(pc', s', k) := motor_step pc s in
    let '(pc'', s'', k') := interleave rest pc' s' in
    (pc'', s'', (k + k')%nat)
  | StopCommand :: rest => interleave rest pc (state_of (stop_motor s))
  end.




End Env.

(** The statements from which the motor thread can only go round its
    loop. *)
Definition stepping (pc : MotorPC) : bool :=
  match pc with
  | CallStop | Finished => false
  | _ => true
  end.

(** The start messages posted so far. *)
Definition started_messages (s : State) : nat :=
  List.length (filter (fun m => match m with
                               | VehicleStarted => true
                               | UnauthorizedAttempt => false
                               end) (sms s)).

(** *** The other routes *)

Inductive IndexResponse :=
| ToAuthorize       (* redirect('/authorize') *)
| Dashboard.        (* the control page *)

(** The route /. *)
Definition index : M IndexResponse :=
  (pending <- gets pending_authorization ;;
   if pending then ret ToAuthorize else ret Dashboard)%py.

(** The route /captured_image: the file sent, or [None] for the 404. *)
Definition captured_image : M (option CapFile) :=
  (d <- gets disk ;;
   match latest d with
   | Some f => if os_path_exists (path f) d then ret (Some f) else ret None
   | None => ret None
   end)%py.

(** [stream_logs] inside its [while] loop, for one client.  [reads] lists
    the value of [server_logs] each time the generator evaluates the name,
    in order: at the test, and, when the test succeeds, at the [yield] and
    then, once the generator has been resumed, at the copy.  Other threads
    append to the log in between.  The result lists the logs sent. *)
Fixpoint stream_loop (initial_logs : list string)
    (reads : list (list string)) : list (list string) :=
  match reads with
  | [] => []
  | at_test :: rest =>
    if (List.length initial_logs <? List.length at_test)%nat
    then match rest with
         | [] => []
         | at_yield :: rest' =>
           at_yield :: match rest' with
                       | [] => []
                       | at_copy :: rest'' => stream_loop at_copy rest''
                       end
         end
    else stream_loop initial_logs rest
  end.

(** [stream_logs]: the copy, the first [yield], then the loop. *)
Definition stream_logs (reads : list (list string)) : list (list string) :=
  match reads with
  | at_copy :: at_yield :: rest => at_yield :: stream_loop at_copy rest
  | _ => []
  end.

Section Requests.
Variable Encoding : Type.
Variable face_distance : Encoding -> Encoding -> Q.
Variable reference_encodings : list (string * Encoding).
Variable device_opens : nat -> bool.

(** GET /stop_vehicle *)
Definition stop_motor_web : M unit := stop_motor device_opens.

(** The requests that change the state. *)
Inductive Command :=
| StartVehicle (a : Attempt Encoding)     (* GET /start_vehicle *)
| StopVehicle                             (* GET /stop_vehicle *)
| Authorize (req : Request).              (* /authorize *)

(** The state a request leaves, whether its handler returned, raised,
    blocked or was still polling when its observations ran out. *)
Definition handle (c : Command) (s : State) : State :=
  match c with
  | StartVehicle a =>
    state_of (start_motor_web face_distance reference_encodings device_opens
                a s)
  | StopVehicle => state_of (stop_motor_web s)
  | Authorize req => state_of (authorize req s)
  end.

Definition serve (cmds : list Command) (s : State) : State :=
  fold_left (fun s' c => handle c s') cmds s.

(** The clock has moved on at every start request: the name of its capture
    file is not yet in the directory. *)
Fixpoint fresh_names (cmds : list Command) (s : State) : Prop :=
  match cmds with
  | [] => True
  | c :: rest =>
    match c with
    | StartVehicle a =>
      os_path_exists (capture_path (timestamp a)) (disk s) = false
    | _ => True
    end /\ fresh_names rest (handle c s)
  end.
End Requests.

End F6.

(** ** The match test of 2.py *)

Module Py2.

(** [face_distance < 0.7 and confidence > 50] *)
Definition is_match (d : Q) : bool :=
  Qltb d (round64 (7 # 10)) && Qltb 50 (confidence d).

(** The two floats between which the test changes its answer:
    0.4999999999999999 and 0.49999999999999994, the second and the
    first float below 0.5. *)
Definition last_accepted : Q := 9007199254740990 # 18014398509481984.
Definition first_rejected : Q := 9007199254740991 # 18014398509481984.

Section Env.
Variable Encoding : Type.
Variable face_distance : Encoding -> Encoding -> Q.
Variable reference_encodings : list (string * Encoding).

Definition compare_faces (captured_image_path : string)
    (captured_encodings : list Encoding) (d : Disk) : bool * list Audit :=
  if negb (os_path_exists captured_image_path d)
  then (false, [ImageNotFound])
  else match captured_encodings with
  | [] => (false, [NoFaceFound])
  | captured_encoding :: _ =>
    compare_with face_distance is_match reference_encodings captured_encoding
  end.
End Env.

End Py2.

(** ** The earlier variant final2.py, where it differs *)

Module Final2.

Definition max_retries : nat := 5.

(** The checks of one loop pass: brightness, then a non-empty face list. *)
Definition inspect (fr : Frame) : Verdict :=
  if Qltb (brightness fr) 30 then Reject TooDark else
  match face_locations fr with
  | [] => Reject NoFace
  | _ :: _ => Good
  end.

(** [frame.size == 0] *)
Definition empty_frame (fr : Frame) : bool :=
  (frame_height fr * frame_width fr * 3 =? 0)%Z.

(** The attempt loop with the camera open; the write is not checked. *)
Fixpoint attempt_loop (captured_image_path : string) (now : Z)
    (retry_count : nat) (shots : list Shot) (d : Disk) (passes : nat)
    : F6.LoopRun :=
  if (max_retries <=? retry_count)%nat
  then F6.mkLoopRun F6.ReturnedNone passes retry_count d
  else match shots with
  | [] => F6.mkLoopRun F6.StillLooping passes retry_count d
  | sh :: rest =>
    match retrieved sh with
    | None =>
      attempt_loop captured_image_path now (S retry_count) rest d (S passes)
    | Some fr =>
      if empty_frame fr
      then attempt_loop captured_image_path now (S retry_count) rest d
             (S passes)
      else match inspect fr with
      | Good =>
        F6.mkLoopRun F6.ReturnedPath (S passes) retry_count
          (imwrite captured_image_path now (write_ok sh) d)
      | _ => attempt_loop captured_image_path now retry_count rest d (S passes)
      end
    end
  end.

(** [face_recognition.compare_faces(..., tolerance=0.6)]:
    distance <= tolerance. *)
Definition is_match (d : Q) : bool := Qle_bool d (round64 (6 # 10)).

(** POST /authorize: no capture file is touched. *)
Definition authorize_post (action : option string) : M Response :=
  match action with
  | Some a =>
    if String.eqb a "yes"
    then (modify start_motor_thread ;;;
          modify (set_vehicle_stopped false) ;;;
          modify (post_sms VehicleStarted) ;;;
          modify (set_pending_authorization false) ;;;
          modify (set_sms_sent false) ;;;
          ret (Redirect "/"))%py
    else if String.eqb a "no"
    then (modify (set_pending_authorization false) ;;;
          modify (set_sms_sent false) ;;;
          ret (Redirect "/"))%py
    else ret (Redirect "/")
  | None => ret (Redirect "/")
  end.

(** [reinitialize_camera]: index [i] counts when it opens and one of its
    three test reads succeeds; otherwise the camera is left as index 2
    was found. *)
Definition reinitialize_camera (device_opens device_reads : nat -> bool)
    : M bool :=
  with_camera_lock (fun s =>
    let ok := existsb (fun i => device_opens i && device_reads i) (seq 0 3) in
    Ret ok (set_camera_opened (ok || device_opens 2%nat) s)).

Definition stop_motor (device_opens device_reads : nat -> bool) : M unit :=
  (modify (set_motor_running false) ;;;
   modify (set_vehicle_stopped true) ;;;
   modify (set_step [0; 0; 0; 0]%Z) ;;;
   with_camera_lock
     (_ <- reinitialize_camera device_opens device_reads ;; ret tt) ;;;
   modify (set_pending_authorization false) ;;;
   modify (set_sms_sent false))%py.

End Final2.

(** ** Sample inputs *)

(** Encodings on a line, with the distance between them. *)
Definition line_distance (a b : Q) : Q := Qabs (a - b).

Definition profile_A : string := "/home/mrd/Desktop/owner_face1.png".
Definition profile_B : string := "/home/mrd/Desktop/owner_face2.png".
Definition profile_C : string := "/home/mrd/Desktop/owner_face3.png".

(** Seen from the encoding [0]: A is 0.3 away and B is 0.9 away. *)
Definition two_profiles : list (string * Q) :=
  [(profile_A, 3 # 10); (profile_B, 9 # 10)].

(** Seen from the encoding [0]: A is 0.9 away, B 0.15 and C 0.05. *)
Definition three_profiles : list (string * Q) :=
  [(profile_A, 9 # 10); (profile_B, 15 # 100); (profile_C, 5 # 100)].

Definition capture_1 : string := F6.capture_path "20250101_120000_000001".
Definition capture_2 : string := F6.capture_path "20250101_120500_000002".

(** A 640x480 frame with one centred, upright, 200x200 face. *)
Definition good_frame : Frame :=
  mkFrame 640 480 120 [mkFace 140 420 340 220] (Some 3%Q).

(** The same scene with the light off. *)
Definition dark_frame : Frame :=
  mkFrame 640 480 20 [mkFace 140 420 340 220] (Some 3%Q).

Definition good_shot : Shot := mkShot (Some good_frame) true.
Definition dark_shot : Shot := mkShot (Some dark_frame) true.
Definition lost_shot : Shot := mkShot None true.

(** The globals as the script sets them, with the camera open. *)
Definition initial_state : State :=
  mkState false true false false false false true [] 0 [] [].

Definition one_capture : Disk := [mkCapFile capture_1 100].

(** A stopped vehicle with one capture on disk and nothing pending. *)
Definition idle_with_capture : State := set_disk one_capture initial_state.

(** A stopped vehicle waiting for the owner's answer about [capture_1]. *)
Definition awaiting_owner : State :=
  mkState false true true true true false true one_capture 0 []
    [UnauthorizedAttempt].

(** The motor turning: a thread was started and has set its flag. *)
Definition cruising : State :=
  mkState true false false false true false true [] 1 [] [VehicleStarted].

(** Two earlier captures on disk. *)
Definition two_captures : Disk :=
  [mkCapFile capture_2 150; mkCapFile capture_1 100].

(** Two start attempts against [two_profiles]: a stranger whose encoding
    is 0.2 from profile A, then the owner, whose encoding is profile A's. *)
Definition stranger : F6.Attempt Q :=
  F6.mkAttempt [true; false] "20250101_120000_000001" 100 [good_shot]
    [5 # 10].
Definition owner : F6.Attempt Q :=
  F6.mkAttempt [false] "20250101_120500_000002" 200 [good_shot] [3 # 10].

(** A second stranger, trying after the first one. *)
Definition second_stranger : F6.Attempt Q :=
  F6.mkAttempt [false] "20250101_120500_000002" 200 [good_shot] [6 # 10].

(** A running vehicle with the camera unplugged. *)
Definition cruising_blind : State := set_camera_opened false cruising.

(** * Properties *)

(** ** Rational comparisons *)

Lemma Qltb_lt (a b : Q) : Qltb a b = true <-> (a < b)%Q.
Proof.
  unfold Qltb. rewrite negb_true_iff. split.
  - intros H. apply Qnot_le_lt. intros Hle.
    apply Qle_bool_iff in Hle. congruence.
  - intros H. destruct (Qle_bool b a) eqn:E; [|reflexivity].
    apply Qle_bool_iff in E. exfalso. exact (Qlt_not_le _ _ H E).
Qed.

Lemma Qltb_ge (a b : Q) : Qltb a b = false <-> (b <= a)%Q.
Proof.
  unfold Qltb. rewrite negb_false_iff. apply Qle_bool_iff.
Qed.

Lemma Qltb_compat (a a' b b' : Q) :
  (a == a')%Q -> (b == b')%Q -> Qltb a b = Qltb a' b'.
Proof.
  intros Ha Hb.
  destruct (Qltb a' b') eqn:E.
  - apply Qltb_lt. apply Qltb_lt in E. now rewrite Ha, Hb.
  - apply Qltb_ge. apply Qltb_ge in E. now rewrite Ha, Hb.
Qed.

(** ** Rounding to the nearest float *)

Section Rounding.
Local Open Scope Q_scope.
Local Unset Implicit Arguments.

(** [rne] respects equality of rationals, picks an integer at most one
    half away, is monotone and leaves integers alone. *)
Lemma rne_comp (x y : Q) : x == y -> rne x = rne y.
Proof.
  intros H. unfold rne. rewrite (Qfloor_comp _ _ H).
  assert (E : x - inject_Z (Qfloor y) == y - inject_Z (Qfloor y))
    by (rewrite H; reflexivity).
  now rewrite (Qcompare_comp _ _ E _ _ (Qeq_refl (1 # 2))).
Qed.

Lemma rne_near (x : Q) :
  inject_Z (rne x) - (1 # 2) <= x <= inject_Z (rne x) + (1 # 2).
Proof.
  unfold rne.
  pose proof (Qfloor_le x) as Hlo. pose proof (Qlt_floor x) as Hhi.
  rewrite inject_Z_plus in Hhi. change (inject_Z 1) with 1 in Hhi.
  destruct (Qcompare_spec (x - inject_Z (Qfloor x)) (1 # 2)) as [E|E|E].
  - destruct (Z.even (Qfloor x));
      [|rewrite inject_Z_plus; change (inject_Z 1) with 1]; lra.
  - lra.
  - rewrite inject_Z_plus. change (inject_Z 1) with 1. lra.
Qed.

Lemma rne_mono (x y : Q) : x <= y -> (rne x <= rne y)%Z.
Proof.
  intros Hxy. destruct (Qeq_dec x y) as [E|N].
  - rewrite (rne_comp x y E). lia.
  - destruct (Z_le_gt_dec (rne x) (rne y)) as [H|H]; [exact H|exfalso].
    assert (Hz : (rne y + 1 <= rne x)%Z) by lia.
    rewrite Zle_Qle, inject_Z_plus in Hz. change (inject_Z 1) with 1 in Hz.
    pose proof (rne_near x). pose proof (rne_near y).
    apply N. lra.
Qed.

Lemma rne_Z (z : Z) : rne (inject_Z z) = z.
Proof.
  unfold rne. rewrite Qfloor_Z.
  assert (E : inject_Z z - inject_Z z == 0) by ring.
  now rewrite (Qcompare_comp _ _ E _ _ (Qeq_refl (1 # 2))).
Qed.

Lemma two_pow_pos (k : Z) : 0 < 2 ^ k.
Proof. apply Qpower_0_lt. reflexivity. Qed.

Lemma two_pow_log2 (n : Z) :
  (0 < n)%Z ->
  2 ^ Z.log2 n <= inject_Z n /\ inject_Z n < 2 * 2 ^ Z.log2 n.
Proof.
  intros Hn. destruct (Z.log2_spec n Hn) as [Hlo Hhi].
  pose proof (Z.log2_nonneg n) as H0.
  rewrite Z.pow_succ_r in Hhi by exact H0.
  rewrite <- (Zpower_Qpower 2 (Z.log2 n) H0).
  split.
  - now rewrite <- Zle_Qle.
  - change 2 with (inject_Z 2) at 1. rewrite <- inject_Z_mult.
    now rewrite <- Zlt_Qlt.
Qed.

Lemma binade_spec (x : Q) :
  0 < x -> 2 ^ binade x <= x /\ x < 2 ^ (binade x + 1).
Proof.
  intros Hx. unfold binade.
  set (a := Z.log2 (Qnum x)). set (b := Z.log2 (Z.pos (Qden x))).
  assert (Hn : (0 < Qnum x)%Z).
  { destruct x as [n p]. unfold Qlt in Hx. simpl in *. lia. }
  destruct (two_pow_log2 (Qnum x) Hn) as [HA1 HA2].
  destruct (two_pow_log2 (Z.pos (Qden x)) eq_refl) as [HB1 HB2].
  fold a in HA1, HA2. fold b in HB1, HB2.
  pose proof (two_pow_pos a) as HA. pose proof (two_pow_pos b) as HB.
  assert (Hk : 2 ^ (a - b) * 2 ^ b == 2 ^ a).
  { rewrite <- Qpower_plus by discriminate. now replace (a - b + b)%Z with a by lia. }
  assert (Hxp : x * inject_Z (Z.pos (Qden x)) == inject_Z (Qnum x)).
  { destruct x as [n p]. unfold Qeq, inject_Z. simpl. lia. }
  pose proof (two_pow_pos (a - b)) as HT.
  assert (Hup : forall j, 2 ^ (j + 1) == 2 * 2 ^ j).
  { intros j. rewrite Qpower_plus by discriminate. rewrite Qpower_1_r. ring. }
  set (X := inject_Z (Qnum x)) in *. set (P := inject_Z (Z.pos (Qden x))) in *.
  set (A := 2 ^ a) in *. set (B := 2 ^ b) in *.
  destruct (Qle_bool (2 ^ (a - b)) x) eqn:E.
  - apply Qle_bool_iff in E. split; [exact E|].
    rewrite Hup. set (T := 2 ^ (a - b)) in *. nra.
  - assert (E' : x < 2 ^ (a - b)).
    { apply Qnot_le_lt. intros H. apply Qle_bool_iff in H. congruence. }
    replace (a - b - 1 + 1)%Z with (a - b)%Z by lia. split; [|exact E'].
    assert (Hd : 2 ^ (a - b) == 2 * 2 ^ (a - b - 1)).
    { rewrite <- Hup. now replace (a - b - 1 + 1)%Z with (a - b)%Z by lia. }
    set (T := 2 ^ (a - b)) in *. set (U := 2 ^ (a - b - 1)) in *. nra.
Qed.

Lemma binade_mono (x y : Q) : 0 < x -> x <= y -> (binade x <= binade y)%Z.
Proof.
  intros Hx Hxy.
  destruct (binade_spec x Hx) as [Hx1 _].
  destruct (binade_spec y) as [_ Hy2]; [lra|].
  assert (H : 2 ^ binade x < 2 ^ (binade y + 1)) by lra.
  apply Qpower_lt_compat_l_inv in H; [lia|reflexivity].
Qed.

Lemma scaled_bounds (x : Q) :
  0 < x ->
  2 ^ 52 <= x / 2 ^ (binade x - 52) /\ x / 2 ^ (binade x - 52) < 2 ^ 53.
Proof.
  intros Hx. destruct (binade_spec x Hx) as [H1 H2].
  pose proof (two_pow_pos (binade x - 52)) as He.
  assert (E1 : 2 ^ binade x == 2 ^ 52 * 2 ^ (binade x - 52)).
  { rewrite <- Qpower_plus by discriminate.
    now replace (52 + (binade x - 52))%Z with (binade x) by lia. }
  assert (E2 : 2 ^ (binade x + 1) == 2 ^ 53 * 2 ^ (binade x - 52)).
  { rewrite <- Qpower_plus by discriminate.
    now replace (53 + (binade x - 52))%Z with (binade x + 1)%Z by lia. }
  split.
  - apply Qle_shift_div_l; [exact He|]. now rewrite <- E1.
  - apply Qlt_shift_div_r; [exact He|]. now rewrite <- E2.
Qed.

Lemma mantissa_bounds (x : Q) :
  0 < x ->
  (2 ^ 52 <= rne (x / 2 ^ (binade x - 52)) <= 2 ^ 53)%Z.
Proof.
  intros Hx. destruct (scaled_bounds x Hx) as [H1 H2].
  split.
  - rewrite <- (rne_Z (2 ^ 52)). apply rne_mono.
    now rewrite Zpower_Qpower by lia.
  - rewrite <- (rne_Z (2 ^ 53)). apply rne_mono.
    rewrite Zpower_Qpower by lia. now apply Qlt_le_weak.
Qed.

Lemma round_pos_mono (x y : Q) :
  0 < x -> x <= y -> round_pos x <= round_pos y.
Proof.
  intros Hx Hxy. assert (Hy : 0 < y) by lra.
  pose proof (binade_mono x y Hx Hxy) as Hb.
  unfold round_pos.
  set (ex := (binade x - 52)%Z). set (ey := (binade y - 52)%Z).
  pose proof (two_pow_pos ex) as Hex. pose proof (two_pow_pos ey) as Hey.
  destruct (Z.eq_dec (binade x) (binade y)) as [E|N].
  - assert (Ee : ex = ey) by (unfold ex, ey; lia). rewrite Ee.
    apply Qmult_le_compat_r; [|lra].
    rewrite <- Zle_Qle. apply rne_mono.
    apply Qmult_le_compat_r; [exact Hxy|].
    apply Qlt_le_weak, Qinv_lt_0_compat, Hey.
  - destruct (mantissa_bounds x Hx) as [_ Hmx].
    destruct (mantissa_bounds y Hy) as [Hmy _].
    fold ex in Hmx. fold ey in Hmy.
    rewrite Zle_Qle, Zpower_Qpower in Hmx by lia.
    rewrite Zle_Qle, Zpower_Qpower in Hmy by lia.
    change (inject_Z 2) with 2 in Hmx, Hmy.
    apply Qle_trans with (2 ^ 53 * 2 ^ ex).
    { apply Qmult_le_compat_r; [exact Hmx|lra]. }
    apply Qle_trans with (2 ^ 52 * 2 ^ ey).
    2:{ apply Qmult_le_compat_r; [exact Hmy|lra]. }
    rewrite <- !Qpower_plus by discriminate.
    apply Qpower_le_compat_l; [unfold ex, ey; lia|discriminate].
Qed.

Lemma round_pos_pos (x : Q) : 0 < x -> 0 < round_pos x.
Proof.
  intros Hx. unfold round_pos.
  destruct (mantissa_bounds x Hx) as [Hm _].
  pose proof (two_pow_pos (binade x - 52)) as He.
  apply Qmult_lt_0_compat; [|exact He].
  change 0 with (inject_Z 0). rewrite <- Zlt_Qlt.
  assert (0 < 2 ^ 52)%Z by reflexivity. lia.
Qed.

Lemma Qnum_sign (x : Q) :
  match Qnum x with
  | Z0 => x == 0
  | Zpos _ => 0 < x
  | Zneg _ => x < 0
  end.
Proof. destruct x as [[|n|n] p]; unfold Qeq, Qlt; simpl; lia. Qed.

Lemma round64_mono (x y : Q) : x <= y -> round64 x <= round64 y.
Proof.
  intros Hxy. unfold round64.
  pose proof (Qnum_sign x) as Sx. pose proof (Qnum_sign y) as Sy.
  destruct (Qnum x) eqn:Ex; destruct (Qnum y) eqn:Ey; try lra.
  - pose proof (round_pos_pos y Sy). lra.
  - now apply round_pos_mono.
  - assert (H : 0 < - x) by lra. pose proof (round_pos_pos (- x) H). lra.
  - assert (H : 0 < - x) by lra. pose proof (round_pos_pos (- x) H).
    pose proof (round_pos_pos y Sy). lra.
  - assert (H : 0 < - y) by lra.
    assert (H' : - y <= - x) by lra.
    pose proof (round_pos_mono (- y) (- x) H H'). lra.
Qed.

Lemma round64_comp (x y : Q) : x == y -> round64 x == round64 y.
Proof.
  intros H. apply Qle_antisym; apply round64_mono; rewrite H; apply Qle_refl.
Qed.

(** The confidence falls as the distance grows. *)
Lemma confidence_antitone (d d' : Q) :
  d <= d' -> confidence d' <= confidence d.
Proof.
  intros H. unfold confidence. apply round64_mono.
  apply Qmult_le_compat_r; [|discriminate].
  apply round64_mono. lra.
Qed.

(** A number its rounding leaves alone, lying in the binade of [2^k], is a
    multiple of [2^(k-52)]. *)
Lemma float_on_grid (d : Q) :
  0 < d -> round64 d == d ->
  exists m : Z, d == inject_Z m * 2 ^ (binade d - 52).
Proof.
  intros Hd H. unfold round64 in H. pose proof (Qnum_sign d) as S.
  destruct (Qnum d); [lra| |lra].
  exists (rne (d / 2 ^ (binade d - 52))). symmetry. exact H.
Qed.

Lemma binade_unique (x : Q) (k : Z) :
  2 ^ k <= x -> x < 2 ^ (k + 1) -> binade x = k.
Proof.
  intros H1 H2. pose proof (two_pow_pos k) as Hk.
  destruct (binade_spec x) as [B1 B2]; [lra|].
  assert (Ha : 2 ^ k < 2 ^ (binade x + 1)) by lra.
  assert (Hb : 2 ^ binade x < 2 ^ (k + 1)) by lra.
  apply Qpower_lt_compat_l_inv in Ha; [|reflexivity].
  apply Qpower_lt_compat_l_inv in Hb; [|reflexivity]. lia.
Qed.

(** No float lies strictly between two neighbours on the grid. *)
Lemma no_float_between (k e : Z) (d : Q) :
  (2 ^ 52 <= k)%Z -> (k + 1 < 2 ^ 53)%Z ->
  round64 d == d ->
  d <= inject_Z k * 2 ^ e \/ inject_Z (k + 1) * 2 ^ e <= d.
Proof.
  intros Hk1 Hk2 Hd.
  destruct (Qlt_le_dec (inject_Z k * 2 ^ e) d) as [Hlo|Hlo]; [|now left].
  destruct (Qlt_le_dec d (inject_Z (k + 1) * 2 ^ e)) as [Hhi|Hhi];
    [|now right].
  exfalso. pose proof (two_pow_pos e) as He.
  assert (Q52 : 2 ^ 52 <= inject_Z k).
  { change 2 with (inject_Z 2). rewrite <- Zpower_Qpower by lia.
    now rewrite <- Zle_Qle. }
  assert (Q53 : inject_Z (k + 1) <= 2 ^ 53).
  { change 2 with (inject_Z 2). rewrite <- Zpower_Qpower by lia.
    rewrite <- Zle_Qle. lia. }
  assert (P52 : 0 < 2 ^ 52) by apply two_pow_pos.
  assert (Hb : binade d = (e + 52)%Z).
  { apply binade_unique.
    - rewrite Qpower_plus by discriminate.
      apply Qle_trans with (inject_Z k * 2 ^ e); [|lra].
      rewrite (Qmult_comm (2 ^ e)). apply Qmult_le_compat_r; lra.
    - replace (e + 52 + 1)%Z with (53 + e)%Z by lia.
      rewrite Qpower_plus by discriminate.
      apply Qlt_le_trans with (inject_Z (k + 1) * 2 ^ e); [exact Hhi|].
      apply Qmult_le_compat_r; lra. }
  assert (Hpos : 0 < d).
  { apply Qlt_trans with (inject_Z k * 2 ^ e); [|exact Hlo].
    apply Qmult_lt_0_compat; lra. }
  destruct (float_on_grid d Hpos Hd) as (m & Hm).
  rewrite Hb in Hm. replace (e + 52 - 52)%Z with e in Hm by lia.
  rewrite Hm in Hlo, Hhi.
  apply Qmult_lt_r in Hlo; [|exact He]. apply Qmult_lt_r in Hhi; [|exact He].
  rewrite <- Zlt_Qlt in Hlo, Hhi. lia.
Qed.
End Rounding.

(** ** The match gate *)

Lemma F6_is_match_spec (d : Q) :
  F6.is_match d = true <->
  (d < round64 (4 # 10))%Q /\ (80 < confidence d)%Q.
Proof.
  unfold F6.is_match. now rewrite andb_true_iff, !Qltb_lt.
Qed.

Lemma Py2_is_match_spec (d : Q) :
  Py2.is_match d = true <->
  (d < round64 (7 # 10))%Q /\ (50 < confidence d)%Q.
Proof.
  unfold Py2.is_match. now rewrite andb_true_iff, !Qltb_lt.
Qed.

Lemma F6_accepts_up_to (d : Q) :
  (d <= F6.last_accepted)%Q -> F6.is_match d = true.
Proof.
  intros H. apply F6_is_match_spec.
  assert (H4 : (F6.last_accepted < round64 (4 # 10))%Q)
    by (vm_compute; reflexivity).
  assert (H8 : (80 < confidence F6.last_accepted)%Q)
    by (vm_compute; reflexivity).
  pose proof (confidence_antitone d F6.last_accepted H) as Hc.
  split; lra.
Qed.

Lemma F6_confidence_from (d : Q) :
  (F6.first_rejected <= d)%Q -> (confidence d <= 80)%Q.
Proof.
  intros H.
  assert (H8 : (confidence F6.first_rejected <= 80)%Q)
    by (vm_compute; discriminate).
  pose proof (confidence_antitone F6.first_rejected d H). lra.
Qed.

Lemma F6_rejects_from (d : Q) :
  (F6.first_rejected <= d)%Q -> F6.is_match d = false.
Proof.
  intros H. pose proof (@F6_confidence_from d H) as Hc.
  destruct (F6.is_match d) eqn:E; [|reflexivity].
  apply F6_is_match_spec in E. lra.
Qed.

Lemma F6_neighbours :
  (F6.last_accepted == inject_Z 7205759403792789 * 2 ^ (-55))%Q /\
  (F6.first_rejected == inject_Z (7205759403792789 + 1) * 2 ^ (-55))%Q /\
  (F6.first_rejected < 2 # 10)%Q /\
  (F6.first_rejected < round64 (4 # 10))%Q.
Proof. repeat split. Qed.

Lemma F6_float_accepted_iff (d : Q) :
  (round64 d == d)%Q ->
  F6.is_match d = true <-> (d <= F6.last_accepted)%Q.
Proof.
  intros Hd. split; [|apply F6_accepts_up_to].
  intros Hm. destruct F6_neighbours as (E1 & E2 & _).
  destruct (no_float_between 7205759403792789 (-55) d) as [H|H];
    [vm_compute; discriminate|reflexivity|exact Hd| |].
  - now rewrite E1.
  - rewrite <- E2 in H. rewrite (@F6_rejects_from d H) in Hm. discriminate.
Qed.

Lemma Py2_accepts_up_to (d : Q) :
  (d <= Py2.last_accepted)%Q -> Py2.is_match d = true.
Proof.
  intros H. apply Py2_is_match_spec.
  assert (H7 : (Py2.last_accepted < round64 (7 # 10))%Q)
    by (vm_compute; reflexivity).
  assert (H5 : (50 < confidence Py2.last_accepted)%Q)
    by (vm_compute; reflexivity).
  pose proof (confidence_antitone d Py2.last_accepted H) as Hc.
  split; lra.
Qed.

Lemma Py2_confidence_from (d : Q) :
  (Py2.first_rejected <= d)%Q -> (confidence d <= 50)%Q.
Proof.
  intros H.
  assert (H5 : (confidence Py2.first_rejected <= 50)%Q)
    by (vm_compute; discriminate).
  pose proof (confidence_antitone Py2.first_rejected d H). lra.
Qed.

Lemma Py2_rejects_from (d : Q) :
  (Py2.first_rejected <= d)%Q -> Py2.is_match d = false.
Proof.
  intros H. pose proof (@Py2_confidence_from d H) as Hc.
  destruct (Py2.is_match d) eqn:E; [|reflexivity].
  apply Py2_is_match_spec in E. lra.
Qed.

Lemma Py2_neighbours :
  (Py2.last_accepted == inject_Z 9007199254740990 * 2 ^ (-54))%Q /\
  (Py2.first_rejected == inject_Z (9007199254740990 + 1) * 2 ^ (-54))%Q /\
  (Py2.first_rejected < 5 # 10)%Q /\
  (Py2.first_rejected < round64 (7 # 10))%Q.
Proof. repeat split. Qed.

Lemma Py2_float_accepted_iff (d : Q) :
  (round64 d == d)%Q ->
  Py2.is_match d = true <-> (d <= Py2.last_accepted)%Q.
Proof.
  intros Hd. split; [|apply Py2_accepts_up_to].
  intros Hm. destruct Py2_neighbours as (E1 & E2 & _).
  destruct (no_float_between 9007199254740990 (-54) d) as [H|H];
    [vm_compute; discriminate|reflexivity|exact Hd| |].
  - now rewrite E1.
  - rewrite <- E2 in H. rewrite (@Py2_rejects_from d H) in Hm. discriminate.
Qed.

(** C10, as the code has it.  In f6.py the test
    [face_distance < 0.4 and confidence > 80], with
    [confidence = (1 - face_distance) * 100] computed in floating point, is
    a single threshold on the distance, and the distance conjunct adds
    nothing; but the threshold is not 0.2.  Every distance up to
    0.19999999999999987 passes and every distance from 0.1999999999999999
    on fails, so a float passes exactly when it is at most
    0.19999999999999987: a passing distance is below 0.2, and the four
    floats below 0.2 that remain fail, their confidence being rounded to
    80. *)
Theorem F6_double_gate_is_single_threshold (d : Q) :
  (F6.is_match d = true -> (d < 2 # 10)%Q) /\
  F6.is_match d = Qltb 80 (confidence d) /\
  ((d <= F6.last_accepted)%Q -> F6.is_match d = true) /\
  ((F6.first_rejected <= d)%Q ->
   F6.is_match d = false /\ (confidence d <= 80)%Q) /\
  ((round64 d == d)%Q ->
   (F6.is_match d = true <-> (d <= F6.last_accepted)%Q)).
Proof.
  destruct F6_neighbours as (_ & _ & H2 & H4).
  assert (Hlt : F6.is_match d = true -> (d < F6.first_rejected)%Q).
  { intros Hm. apply Qnot_le_lt. intros H.
    rewrite (@F6_rejects_from d H) in Hm. discriminate. }
  split; [|split; [|split; [|split]]].
  - intros Hm. specialize (Hlt Hm). lra.
  - destruct (Qltb 80 (confidence d)) eqn:E.
    + apply F6_is_match_spec. apply Qltb_lt in E. split; [|exact E].
      apply Qnot_le_lt. intros H.
      assert (H' : (F6.first_rejected <= d)%Q) by lra.
      pose proof (@F6_confidence_from d H'). lra.
    + unfold F6.is_match. rewrite E. apply andb_false_r.
  - apply F6_accepts_up_to.
  - intros H. split; [now apply F6_rejects_from|now apply F6_confidence_from].
  - apply F6_float_accepted_iff.
Qed.

Lemma F6_double_gate_is_single_threshold_witness :
  F6.is_match (3 # 16) = true /\ F6.is_match (1 # 4) = false.
Proof.
  split.
  - apply (proj2 (proj2 (proj2 (proj2
             (F6_double_gate_is_single_threshold (3 # 16)))))).
    + vm_compute. reflexivity.
    + vm_compute. discriminate.
  - apply (proj1 (proj2 (proj2 (proj2
             (F6_double_gate_is_single_threshold (1 # 4)))))).
    vm_compute. discriminate.
Defined.

(** C10 as written fails on f6.py: 0.19999999999999998, the float next
    below the float 0.2, is below 0.2 and below 0.4, and in exact arithmetic
    its confidence exceeds 80; the code computes [1 - d] as the float 0.8
    and the confidence as 80.0, and answers no. *)
Lemma float_next_below_02_is_rejected_by_f6 :
  let d := (7205759403792793 # 36028797018963968)%Q in
  (round64 d == d)%Q /\
  (d < 2 # 10)%Q /\
  (d < round64 (4 # 10))%Q /\
  (80 < (1 - d) * 100)%Q /\
  (round64 (1 - d) == round64 (8 # 10))%Q /\
  (confidence d == 80)%Q /\
  F6.is_match d = false.
Proof. vm_compute. repeat split; discriminate. Qed.

(** ** Walking the references *)

Section ReferencesFacts.
Variable Encoding : Type.
Variable face_distance : Encoding -> Encoding -> Q.
Variable is_match : Q -> bool.

Lemma compare_with_found refs cap :
  fst (compare_with face_distance is_match refs cap)
  = existsb (fun r => is_match (face_distance (snd r) cap)) refs.
Proof.
  induction refs as [|[p e] rest IH]; simpl; [reflexivity|].
  destruct (is_match (face_distance e cap)); simpl; [reflexivity|].
  destruct (compare_with face_distance is_match rest cap); simpl in *.
  exact IH.
Qed.

(** Nobody qualifies: every reference is examined and the answer is no. *)
Lemma compare_with_none refs cap :
  (forall r, In r refs -> is_match (face_distance (snd r) cap) = false) ->
  let (found, trail) := compare_with face_distance is_match refs cap in
  found = false /\ examined trail = map fst refs.
Proof.
  induction refs as [|[p e] rest IH]; simpl; intros Hall; [auto|].
  assert (He : is_match (face_distance e cap) = false)
    by (apply (Hall (p, e)); auto).
  rewrite He.
  destruct (compare_with face_distance is_match rest cap) as [found trail].
  destruct IH as [Hf Ht]; [intros; apply Hall; auto|].
  subst found. simpl. rewrite Ht. auto.
Qed.

(** The first qualifying reference ends the walk. *)
Lemma compare_with_first pre p e post cap :
  (forall r, In r pre -> is_match (face_distance (snd r) cap) = false) ->
  is_match (face_distance e cap) = true ->
  let (found, trail) :=
    compare_with face_distance is_match (pre ++ (p, e) :: post) cap in
  found = true /\ examined trail = map fst pre ++ [p].
Proof.
  induction pre as [|[q e'] pre IH]; simpl; intros Hpre He.
  - rewrite He. simpl. auto.
  - assert (He' : is_match (face_distance e' cap) = false)
      by (apply (Hpre (q, e')); auto).
    rewrite He'.
    destruct (compare_with face_distance is_match (pre ++ (p, e) :: post) cap)
      as [found trail].
    destruct IH as [Hf Ht]; [intros; apply Hpre; auto|assumption|].
    subst found. simpl. rewrite Ht. auto.
Qed.

(** Whatever the trail calls a strong match passed the test, and its
    confidence is the one derived from its distance. *)
Lemma compare_with_strong refs cap d c :
  In (StrongMatch d c) (snd (compare_with face_distance is_match refs cap)) ->
  is_match d = true /\ c = confidence d.
Proof.
  induction refs as [|[p e] rest IH]; simpl.
  - intros [H|[]]; discriminate.
  - destruct (is_match (face_distance e cap)) eqn:He; simpl.
    + intros [H|[H|[]]]; [discriminate|]. injection H as <- <-. auto.
    + destruct (compare_with face_distance is_match rest cap) as [found trail].
      simpl in *. intros [H|[H|H]]; [discriminate|discriminate|auto].
Qed.
End ReferencesFacts.

Lemma confidence_compat (d d' : Q) :
  (d == d')%Q -> (confidence d == confidence d')%Q.
Proof.
  intros H. unfold confidence. apply round64_comp.
  apply Qmult_comp; [|reflexivity]. apply round64_comp. now rewrite H.
Qed.

Lemma F6_is_match_compat (d d' : Q) :
  (d == d')%Q -> F6.is_match d = F6.is_match d'.
Proof.
  intros H. unfold F6.is_match.
  rewrite (Qltb_compat (a:=d) (a':=d') (b:=round64 (4 # 10))
             (b':=round64 (4 # 10))),
          (Qltb_compat (a:=80) (a':=80) (b:=confidence d) (b':=confidence d'));
    auto using confidence_compat; reflexivity.
Qed.

Lemma Py2_is_match_compat (d d' : Q) :
  (d == d')%Q -> Py2.is_match d = Py2.is_match d'.
Proof.
  intros H. unfold Py2.is_match.
  rewrite (Qltb_compat (a:=d) (a':=d') (b:=round64 (7 # 10))
             (b':=round64 (7 # 10))),
          (Qltb_compat (a:=50) (a':=50) (b:=confidence d) (b':=confidence d'));
    auto using confidence_compat; reflexivity.
Qed.

(** ** The matcher *)

(** C7.  With a captured encoding and a non-empty reference list,
    [compare_faces] walks the references in their loaded order: it answers
    true at the first one that passes the test and examines none after it,
    and answers false, having examined all of them, when none passes. *)
Theorem compare_faces_first_match_wins
    (Encoding : Type) (fd : Encoding -> Encoding -> Q)
    (refs : list (string * Encoding)) (p : string)
    (cap : Encoding) (others : list Encoding) (d : Disk) :
  refs <> [] ->
  os_path_exists p d = true ->
  (forall pre q e post,
      refs = pre ++ (q, e) :: post ->
      (forall r, In r pre -> F6.is_match (fd (snd r) cap) = false) ->
      F6.is_match (fd e cap) = true ->
      fst (F6.compare_faces fd refs p (cap :: others) d) = true /\
      examined (snd (F6.compare_faces fd refs p (cap :: others) d))
      = map fst pre ++ [q])
  /\ ((forall r, In r refs -> F6.is_match (fd (snd r) cap) = false) ->
      fst (F6.compare_faces fd refs p (cap :: others) d) = false /\
      examined (snd (F6.compare_faces fd refs p (cap :: others) d))
      = map fst refs).
Proof.
  intros _ Hp. unfold F6.compare_faces. rewrite Hp. simpl. split.
  - intros pre q e post -> Hpre He.
    pose proof (compare_with_first fd F6.is_match pre q e post cap Hpre He)
      as H.
    destruct (compare_with fd F6.is_match (pre ++ (q, e) :: post) cap).
    exact H.
  - intros Hall.
    pose proof (compare_with_none fd F6.is_match refs cap Hall) as H.
    destruct (compare_with fd F6.is_match refs cap). exact H.
Qed.

Lemma compare_faces_first_match_wins_witness :
  three_profiles <> [] /\
  os_path_exists capture_1 one_capture = true /\
  fst (F6.compare_faces line_distance three_profiles capture_1 [0%Q]
         one_capture) = true /\
  examined (snd (F6.compare_faces line_distance three_profiles capture_1
                   [0%Q] one_capture))
  = [profile_A; profile_B].
Proof.
  assert (Hne : three_profiles <> []) by discriminate.
  assert (Hp : os_path_exists capture_1 one_capture = true) by reflexivity.
  split; [exact Hne|]. split; [exact Hp|].
  apply (proj1 (@compare_faces_first_match_wins Q line_distance
                  three_profiles capture_1 0%Q [] one_capture Hne Hp)
               [(profile_A, 9 # 10)] profile_B (15 # 100)
               [(profile_C, 5 # 100)]).
  - reflexivity.
  - intros r [<-|[]]. vm_compute. reflexivity.
  - vm_compute. reflexivity.
Defined.

(** The answer of [compare_faces] is true exactly when the capture file
    exists and some loaded reference passes the test against the first
    encoding of the capture. *)
Lemma compare_faces_answer
    (Encoding : Type) (fd : Encoding -> Encoding -> Q) (test : Q -> bool)
    (refs : list (string * Encoding)) (p : string)
    (encs : list Encoding) (d : Disk) :
  fst (if negb (os_path_exists p d) then (false, [ImageNotFound])
       else match encs with
            | [] => (false, [NoFaceFound])
            | cap :: _ => compare_with fd test refs cap
            end) = true <->
  os_path_exists p d = true /\
  exists cap others image ref,
    encs = cap :: others /\ In (image, ref) refs /\
    test (fd ref cap) = true.
Proof.
  destruct (os_path_exists p d); simpl.
  2:{ split; [discriminate|]. intros [H _]. discriminate. }
  destruct encs as [|cap others]; simpl.
  { split; [discriminate|]. intros (_ & c & o & _ & _ & H & _).
    discriminate. }
  rewrite compare_with_found, existsb_exists. split.
  - intros ([image ref] & Hin & Ht). split; [reflexivity|].
    exists cap, others, image, ref. auto.
  - intros (_ & c & o & image & ref & E & Hin & Ht).
    injection E as <- <-. exists (image, ref). auto.
Qed.

Lemma confidence_of_03 (x : Q) :
  (x == 3 # 10)%Q \/ (x == round64 (3 # 10))%Q ->
  (confidence x == 70)%Q /\ (x < round64 (4 # 10))%Q /\
  F6.is_match x = false /\ Py2.is_match x = true.
Proof.
  intros [H|H].
  - rewrite (confidence_compat H), (F6_is_match_compat H),
      (Py2_is_match_compat H), H.
    vm_compute. repeat split; discriminate.
  - rewrite (confidence_compat H), (F6_is_match_compat H),
      (Py2_is_match_compat H), H.
    vm_compute. repeat split; discriminate.
Qed.

(** C3, as the code has it.  [compare_faces] answers true exactly when the
    capture file exists and, for the first encoding of the capture, some
    loaded reference has a distance below the distance threshold and a
    derived confidence above the minimum; the match it reports in its trail
    satisfies both conditions.  f6.py uses 0.4 and 80%, 2.py uses 0.7 and
    50%.  A capture at distance 0.3 from a reference (confidence 70%) is
    therefore no match for that reference in f6.py, which answers false
    when no reference is nearer than 0.1999999999999999, and is a match in
    2.py. *)
Theorem match_needs_distance_and_confidence
    (Encoding : Type) (fd : Encoding -> Encoding -> Q)
    (refs : list (string * Encoding)) (p : string)
    (encs : list Encoding) (d : Disk) :
  (fst (F6.compare_faces fd refs p encs d) = true <->
   os_path_exists p d = true /\
   exists cap others image ref,
     encs = cap :: others /\ In (image, ref) refs /\
     (fd ref cap < round64 (4 # 10))%Q /\ (80 < confidence (fd ref cap))%Q)
  /\ (fst (Py2.compare_faces fd refs p encs d) = true <->
      os_path_exists p d = true /\
      exists cap others image ref,
        encs = cap :: others /\ In (image, ref) refs /\
        (fd ref cap < round64 (7 # 10))%Q /\
        (50 < confidence (fd ref cap))%Q)
  /\ (forall dist c,
      In (StrongMatch dist c) (snd (F6.compare_faces fd refs p encs d)) ->
      (dist < round64 (4 # 10))%Q /\ (80 < c)%Q /\ c = confidence dist)
  /\ (forall dist c,
      In (StrongMatch dist c) (snd (Py2.compare_faces fd refs p encs d)) ->
      (dist < round64 (7 # 10))%Q /\ (50 < c)%Q /\ c = confidence dist)
  /\ (forall cap others,
      encs = cap :: others ->
      (forall r, In r refs -> (F6.first_rejected <= fd (snd r) cap)%Q) ->
      fst (F6.compare_faces fd refs p encs d) = false)
  /\ (forall cap others image_A ref_A,
      encs = cap :: others ->
      os_path_exists p d = true ->
      (fd ref_A cap == 3 # 10)%Q \/ (fd ref_A cap == round64 (3 # 10))%Q ->
      (confidence (fd ref_A cap) == 70)%Q /\
      (fd ref_A cap < round64 (4 # 10))%Q /\
      F6.is_match (fd ref_A cap) = false /\
      F6.compare_faces fd [(image_A, ref_A)] p encs d
      = (false, [Comparing image_A;
                 NoMatch (fd ref_A cap) (confidence (fd ref_A cap));
                 NoStrongMatches]) /\
      (In (image_A, ref_A) refs ->
       fst (Py2.compare_faces fd refs p encs d) = true)).
Proof.
  assert (Htrail : forall (test : Q -> bool) dist c,
            In (StrongMatch dist c)
               (snd (if negb (os_path_exists p d)
                     then (false, [ImageNotFound])
                     else match encs with
                          | [] => (false, [NoFaceFound])
                          | cap :: _ => compare_with fd test refs cap
                          end)) ->
            test dist = true /\ c = confidence dist).
  { intros test dist c. destruct (os_path_exists p d); simpl.
    2:{ intros [H|[]]. discriminate. }
    destruct encs as [|cap others]; simpl.
    { intros [H|[]]. discriminate. }
    apply compare_with_strong. }
  split; [|split; [|split; [|split; [|split]]]].
  - unfold F6.compare_faces. rewrite compare_faces_answer.
    split; intros (Hp & cap & others & image & ref & E & Hin & H);
      (split; [exact Hp|]); exists cap, others, image, ref;
      (split; [exact E|]); (split; [exact Hin|]);
      now apply F6_is_match_spec.
  - unfold Py2.compare_faces. rewrite compare_faces_answer.
    split; intros (Hp & cap & others & image & ref & E & Hin & H);
      (split; [exact Hp|]); exists cap, others, image, ref;
      (split; [exact E|]); (split; [exact Hin|]);
      now apply Py2_is_match_spec.
  - intros dist c H. apply (Htrail F6.is_match) in H. destruct H as [H ->].
    apply F6_is_match_spec in H. tauto.
  - intros dist c H. apply (Htrail Py2.is_match) in H. destruct H as [H ->].
    apply Py2_is_match_spec in H. tauto.
  - intros cap others E Hfar.
    destruct (fst (F6.compare_faces fd refs p encs d)) eqn:Ht;
      [|reflexivity].
    unfold F6.compare_faces in Ht. rewrite compare_faces_answer in Ht.
    destruct Ht as (_ & c & o & image & ref & E' & Hin & H).
    rewrite E in E'. injection E' as <- <-.
    rewrite (@F6_rejects_from (fd ref cap) (Hfar (image, ref) Hin)) in H.
    discriminate.
  - intros cap others image_A ref_A E Hp H03.
    destruct (@confidence_of_03 (fd ref_A cap) H03) as (Hc & H4 & H6 & H2).
    split; [exact Hc|]. split; [exact H4|]. split; [exact H6|]. split.
    + unfold F6.compare_faces. rewrite Hp, E. simpl. rewrite H6. reflexivity.
    + intros Hin. unfold Py2.compare_faces. rewrite compare_faces_answer.
      split; [exact Hp|]. exists cap, others, image_A, ref_A. auto.
Qed.

Lemma match_needs_distance_and_confidence_witness :
  fst (Py2.compare_faces line_distance two_profiles capture_1 [0%Q]
         one_capture) = true /\
  fst (F6.compare_faces line_distance two_profiles capture_1 [0%Q]
         one_capture) = false /\
  F6.is_match (line_distance (3 # 10) 0) = false.
Proof.
  pose proof (@match_needs_distance_and_confidence Q line_distance
                two_profiles capture_1 [0%Q] one_capture)
    as (_ & _ & _ & _ & Hfar & H03).
  assert (Hd : (line_distance (3 # 10) 0 == 3 # 10)%Q
               \/ (line_distance (3 # 10) 0 == round64 (3 # 10))%Q)
    by (left; reflexivity).
  destruct (H03 0%Q [] profile_A (3 # 10) eq_refl eq_refl Hd)
    as (_ & _ & H6 & _ & H2).
  split; [apply H2; left; reflexivity|]. split; [|exact H6].
  apply (Hfar 0%Q [] eq_refl).
  intros r [<-|[<-|[]]]; vm_compute; discriminate.
Defined.

(** C3 as written fails on f6.py: with two references, the first at
    distance 0.3 (below the 0.4 threshold, confidence 70%), the answer is
    false. *)
Lemma distance_03_is_rejected_by_f6 :
  (line_distance (3 # 10) 0 == 3 # 10)%Q /\
  (line_distance (3 # 10) 0 < 4 # 10)%Q /\
  (50 < confidence (line_distance (3 # 10) 0))%Q /\
  (confidence (line_distance (3 # 10) 0) == 70)%Q /\
  fst (F6.compare_faces line_distance two_profiles capture_1 [0%Q]
         one_capture) = false /\
  examined (snd (F6.compare_faces line_distance two_profiles capture_1 [0%Q]
                   one_capture)) = [profile_A; profile_B].
Proof.
  split; [reflexivity|]. split; [reflexivity|]. split; [reflexivity|].
  split; [reflexivity|]. split; vm_compute; reflexivity.
Qed.

(** ** The capture gate *)

Lemma inspect_good (fr : Frame) :
  F6.inspect fr = Good ->
  (F6.min_brightness <= brightness fr)%Q /\
  exists f,
    face_locations fr = [f] /\
    (F6.min_face_size <= F6.face_width f)%Z /\
    (F6.min_face_size <= F6.face_height f)%Z /\
    (F6.x_offset fr f <= 2 # 10)%Q /\
    (F6.y_offset fr f <= 2 # 10)%Q /\
    (forall a, eye_angle fr = Some a -> (Qabs a <= 15)%Q).
Proof.
  unfold F6.inspect.
  destruct (Qltb (brightness fr) F6.min_brightness) eqn:Hb; [discriminate|].
  apply Qltb_ge in Hb.
  destruct (face_locations fr) as [|f others]; [discriminate|].
  destruct ((F6.face_width f <? F6.min_face_size)%Z
            || (F6.face_height f <? F6.min_face_size)%Z) eqn:Hs;
    [discriminate|].
  apply orb_false_iff in Hs. destruct Hs as [Hw Hh].
  apply Z.ltb_ge in Hw, Hh.
  destruct ((F6.frame_center_x fr =? 0)%Z || (F6.frame_center_y fr =? 0)%Z);
    [discriminate|].
  destruct (Qltb (2 # 10) (F6.x_offset fr f)
            || Qltb (2 # 10) (F6.y_offset fr f)) eqn:Hc; [discriminate|].
  apply orb_false_iff in Hc. destruct Hc as [Hx Hy].
  apply Qltb_ge in Hx, Hy.
  destruct others; [|discriminate].
  intros Ha. split; [exact Hb|]. exists f. repeat split; auto.
  intros a Ea. rewrite Ea in Ha.
  destruct (Qltb 15 (Qabs a)) eqn:Hr; [discriminate|].
  now apply Qltb_ge in Hr.
Qed.

Lemma attempt_loop_nil p now rc d k :
  F6.attempt_loop p now rc [] d k =
  if (F6.max_retries <=? rc)%nat
  then F6.mkLoopRun F6.ReturnedNone k rc d
  else F6.mkLoopRun F6.StillLooping k rc d.
Proof. reflexivity. Qed.

Lemma attempt_loop_cons p now rc sh rest d k :
  F6.attempt_loop p now rc (sh :: rest) d k =
  if (F6.max_retries <=? rc)%nat
  then F6.mkLoopRun F6.ReturnedNone k rc d
  else match retrieved sh with
  | None => F6.attempt_loop p now (S rc) rest d (S k)
  | Some fr =>
    match F6.inspect fr with
    | ZeroDivision => F6.mkLoopRun F6.Raised (S k) rc d
    | Reject _ => F6.attempt_loop p now rc rest d (S k)
    | Good =>
      if os_path_exists p (imwrite p now (write_ok sh) d)
      then F6.mkLoopRun F6.ReturnedPath (S k) rc
             (imwrite p now (write_ok sh) d)
      else F6.attempt_loop p now (S rc) rest
             (imwrite p now (write_ok sh) d) (S k)
    end
  end.
Proof. reflexivity. Qed.

(** A path is only returned from a pass whose frame passed every check and
    whose file is on disk. *)
Lemma attempt_loop_returned p now shots :
  forall rc d k,
  F6.exit (F6.attempt_loop p now rc shots d k) = F6.ReturnedPath ->
  exists n sh fr,
    F6.iterations (F6.attempt_loop p now rc shots d k) = (k + S n)%nat /\
    nth_error shots n = Some sh /\
    retrieved sh = Some fr /\
    F6.inspect fr = Good /\
    os_path_exists p (F6.disk_after (F6.attempt_loop p now rc shots d k))
    = true.
Proof.
  induction shots as [|sh rest IH]; intros rc d k.
  - rewrite attempt_loop_nil.
    destruct (F6.max_retries <=? rc)%nat; discriminate.
  - rewrite attempt_loop_cons.
    destruct (F6.max_retries <=? rc)%nat; [discriminate|].
    assert (shift : forall rc' d',
      F6.exit (F6.attempt_loop p now rc' rest d' (S k)) = F6.ReturnedPath ->
      exists n sh0 fr,
        F6.iterations (F6.attempt_loop p now rc' rest d' (S k))
        = (k + S n)%nat /\
        nth_error (sh :: rest) n = Some sh0 /\
        retrieved sh0 = Some fr /\
        F6.inspect fr = Good /\
        os_path_exists p
          (F6.disk_after (F6.attempt_loop p now rc' rest d' (S k))) = true).
    { intros rc' d' H.
      destruct (IH rc' d' (S k) H) as (n & sh' & fr' & Hi & Hn & Hr).
      exists (S n), sh', fr'. simpl. split; [lia|]. split; tauto. }
    destruct (retrieved sh) as [fr|] eqn:Er; [|apply shift].
    destruct (F6.inspect fr) eqn:Ei; [|apply shift|discriminate].
    destruct (os_path_exists p (imwrite p now (write_ok sh) d)) eqn:Ex;
      [|apply shift].
    intros _. exists 0%nat, sh, fr. simpl. repeat split; auto. lia.
Qed.

(** What [capture_image_with_face] does, by the state of the camera. *)
Lemma capture_image_with_face_cases dev ts now shots s :
  let s1 := set_disk (F6.cleanup (disk s)) s in
  let r := F6.attempt_loop (F6.capture_path ts) now 0 shots
             (F6.cleanup (disk s)) 0 in
  let s2 := set_camera_lock false
              (set_disk (F6.disk_after r) (set_camera_lock true s1)) in
  F6.capture_image_with_face dev ts now shots s =
  if camera_lock s then Deadlock s1
  else if camera_opened s then
    match F6.exit r with
    | F6.ReturnedPath => Ret (Some (F6.capture_path ts)) s2
    | F6.ReturnedNone => Ret None s2
    | F6.Raised => Exn s2
    | F6.StillLooping =>
      Looping (set_disk (F6.disk_after r) (set_camera_lock true s1))
    end
  else Deadlock (set_camera_lock true s1).
Proof.
  unfold F6.capture_image_with_face, F6.ensure_camera, F6.initialize_camera,
    bind, modify, gets, ret, with_camera_lock. simpl.
  destruct (camera_lock s); [reflexivity|].
  destruct (camera_opened s); simpl; [|reflexivity].
  destruct (F6.exit _); reflexivity.
Qed.

(** C4.  A call of [capture_image_with_face] that returns a path returns
    the frame of its last pass, and that frame has mean brightness at least
    50 and exactly one detected face, at least 150 pixels wide and high,
    whose centre is within 0.2 of the frame centre on both axes and whose
    eye line, when landmarks were found, is tilted by at most 15
    degrees; the file is on disk. *)
Theorem returned_frame_passed_every_check
    (dev : nat -> bool) (ts : string) (now : Z) (shots : list Shot)
    (s s' : State) (p : string) :
  F6.capture_image_with_face dev ts now shots s = Ret (Some p) s' ->
  os_path_exists p (disk s') = true /\
  exists fr f,
    F6.returned_frame shots
      (F6.attempt_loop (F6.capture_path ts) now 0 shots
         (F6.cleanup (disk s)) 0) = Some fr /\
    (F6.min_brightness <= brightness fr)%Q /\
    face_locations fr = [f] /\
    (F6.min_face_size <= F6.face_width f)%Z /\
    (F6.min_face_size <= F6.face_height f)%Z /\
    (F6.x_offset fr f <= 2 # 10)%Q /\
    (F6.y_offset fr f <= 2 # 10)%Q /\
    (forall a, eye_angle fr = Some a -> (Qabs a <= 15)%Q).
Proof.
  rewrite capture_image_with_face_cases.
  destruct (camera_lock s); [discriminate|].
  destruct (camera_opened s); [|discriminate].
  destruct (F6.exit _) eqn:Ex; try discriminate.
  intros H. injection H as <- <-.
  destruct (attempt_loop_returned _ _ _ _ _ _ Ex)
    as (n & sh & fr & Hi & Hn & Hr & Hg & Hd).
  split; [exact Hd|].
  destruct (inspect_good fr Hg) as (Hb & f & Hf & Hw & Hh & Hx & Hy & Ha).
  exists fr, f. split.
  - unfold F6.returned_frame. rewrite Ex, Hi. simpl. now rewrite Hn.
  - repeat split; auto.
Qed.

Lemma returned_frame_passed_every_check_witness :
  F6.capture_image_with_face (fun _ => true) "20250101_120000_000001" 100
    [dark_shot; lost_shot; good_shot] initial_state
  = Ret (Some capture_1)
        (set_disk [mkCapFile capture_1 100] initial_state) /\
  os_path_exists capture_1 [mkCapFile capture_1 100] = true.
Proof.
  assert (H : F6.capture_image_with_face (fun _ => true)
                "20250101_120000_000001" 100
                [dark_shot; lost_shot; good_shot] initial_state
              = Ret (Some capture_1)
                    (set_disk [mkCapFile capture_1 100] initial_state))
    by (vm_compute; reflexivity).
  split; [exact H|].
  exact (proj1 (returned_frame_passed_every_check _ _ _ _ _ H)).
Defined.

(** ** The retry bound *)

Lemma quality_rejected_cases (sh : Shot) :
  F6.quality_rejected sh =
  match retrieved sh with
  | Some fr =>
    match F6.inspect fr with
    | Reject _ => true
    | _ => false
    end
  | None => false
  end.
Proof. reflexivity. Qed.

(** Every pass is a counted failure, a quality rejection, or the last. *)
Lemma attempt_loop_accounting p now shots :
  forall rc d k,
  (rc <= F6.max_retries)%nat ->
  let r := F6.attempt_loop p now rc shots d k in
  (rc <= F6.retries r <= F6.max_retries)%nat /\
  (F6.exit r = F6.ReturnedNone <-> F6.retries r = F6.max_retries) /\
  (k <= F6.iterations r)%nat /\
  F6.iterations r
  = (k + (F6.retries r - rc)
     + List.length (filter F6.quality_rejected
                 (firstn (F6.iterations r - k) shots))
     + F6.final_pass (F6.exit r))%nat.
Proof.
  induction shots as [|sh rest IH]; intros rc d k Hrc r; subst r.
  - rewrite attempt_loop_nil.
    destruct (F6.max_retries <=? rc)%nat eqn:E; simpl;
      [apply Nat.leb_le in E | apply Nat.leb_gt in E];
      rewrite firstn_nil; simpl; repeat split;
      try lia; try discriminate; intros; lia.
  - rewrite attempt_loop_cons.
    destruct (F6.max_retries <=? rc)%nat eqn:E.
    { apply Nat.leb_le in E. simpl. rewrite !Nat.sub_diag. simpl.
      repeat split; try lia; intros; lia. }
    apply Nat.leb_gt in E.
    assert (counted : forall d',
      F6.quality_rejected sh = false ->
      let r := F6.attempt_loop p now (S rc) rest d' (S k) in
      (rc <= F6.retries r <= F6.max_retries)%nat /\
      (F6.exit r = F6.ReturnedNone <-> F6.retries r = F6.max_retries) /\
      (k <= F6.iterations r)%nat /\
      F6.iterations r
      = (k + (F6.retries r - rc)
         + List.length (filter F6.quality_rejected
                     (firstn (F6.iterations r - k) (sh :: rest)))
         + F6.final_pass (F6.exit r))%nat).
    { intros d' Hq r.
      destruct (IH (S rc) d' (S k) E) as (Hr & Hx & Hk & Hi). fold r in Hr, Hx, Hk, Hi.
      replace (F6.iterations r - k)%nat with (S (F6.iterations r - S k))
        by lia.
      simpl. rewrite Hq. repeat split; try tauto; lia. }
    assert (last_pass : forall e d',
      F6.quality_rejected sh = false ->
      F6.final_pass e = 1%nat ->
      let r := F6.mkLoopRun e (S k) rc d' in
      (rc <= F6.retries r <= F6.max_retries)%nat /\
      (F6.exit r = F6.ReturnedNone <-> F6.retries r = F6.max_retries) /\
      (k <= F6.iterations r)%nat /\
      F6.iterations r
      = (k + (F6.retries r - rc)
         + List.length (filter F6.quality_rejected
                     (firstn (F6.iterations r - k) (sh :: rest)))
         + F6.final_pass (F6.exit r))%nat).
    { intros e d' Hq He r. subst r. simpl F6.retries. simpl F6.exit.
      simpl F6.iterations.
      replace (S k - k)%nat with 1%nat by lia.
      simpl. rewrite Hq, He. simpl. repeat split; try lia.
      intros ->. discriminate. }
    pose proof (quality_rejected_cases sh) as Hq.
    destruct (retrieved sh) as [fr|] eqn:Er; [|now apply counted].
    destruct (F6.inspect fr) eqn:Ei.
    + destruct (os_path_exists p (imwrite p now (write_ok sh) d));
        [now apply last_pass | now apply counted].
    + destruct (IH rc d (S k) Hrc) as (Hr & Hx & Hk & Hi).
      replace (F6.iterations (F6.attempt_loop p now rc rest d (S k)) - k)%nat
        with (S (F6.iterations (F6.attempt_loop p now rc rest d (S k)) - S k))
        by lia.
      simpl. rewrite Hq. simpl. repeat split; try tauto; lia.
    + now apply last_pass.
Qed.

(** Enough failed reads end the loop. *)
Lemma attempt_loop_ends p now shots :
  forall rc d k,
  (F6.max_retries - rc <= List.length (filter F6.read_failed shots))%nat ->
  F6.exit (F6.attempt_loop p now rc shots d k) <> F6.StillLooping.
Proof.
  induction shots as [|sh rest IH]; intros rc d k H.
  - rewrite attempt_loop_nil. cbn [filter List.length] in H.
    destruct (F6.max_retries <=? rc)%nat eqn:E; [discriminate|].
    apply Nat.leb_gt in E. lia.
  - rewrite attempt_loop_cons.
    destruct (F6.max_retries <=? rc)%nat eqn:E; [discriminate|].
    cbn [filter] in H. unfold F6.read_failed at 1 in H.
    destruct (retrieved sh) as [fr|]; cbn [List.length] in H.
    + destruct (F6.inspect fr); try discriminate.
      * destruct (os_path_exists p (imwrite p now (write_ok sh) d));
          [discriminate|]. apply IH. lia.
      * now apply IH.
    + apply IH. lia.
Qed.

(** Quality rejections alone never end it. *)
Lemma attempt_loop_spins p now shots :
  forall rc d k,
  (rc < F6.max_retries)%nat ->
  (forall sh, In sh shots -> F6.quality_rejected sh = true) ->
  F6.exit (F6.attempt_loop p now rc shots d k) = F6.StillLooping /\
  F6.iterations (F6.attempt_loop p now rc shots d k) = (k + List.length shots)%nat.
Proof.
  induction shots as [|sh rest IH]; intros rc d k Hrc Hall.
  - rewrite attempt_loop_nil.
    apply Nat.leb_gt in Hrc. rewrite Hrc. simpl. split; [reflexivity|lia].
  - rewrite attempt_loop_cons.
    pose proof Hrc as Hrc'. apply Nat.leb_gt in Hrc'. rewrite Hrc'.
    assert (Hq : F6.quality_rejected sh = true) by (apply Hall; now left).
    rewrite quality_rejected_cases in Hq.
    destruct (retrieved sh) as [fr|]; [|discriminate].
    destruct (F6.inspect fr); try discriminate.
    destruct (IH rc d (S k) Hrc) as [He Hi];
      [intros; apply Hall; now right|].
    split; [exact He|]. rewrite Hi. simpl. lia.
Qed.

(** C1, as the code has it.  In [capture_image_with_face] only a failed
    frame read and a capture file missing after the write add to
    [retry_count]: the count never exceeds [max_retries] = 10, the loop
    returns [None] exactly when it reaches 10, and ten failed reads are
    enough to end it.  A rejection by the quality gate (too dark, no face,
    too small, not centred, several faces, rotated) leaves the count alone,
    so the passes through the loop number the counted failures plus the
    quality rejections plus the final pass, and a run of quality rejections
    of any length keeps the loop going. *)
Theorem retry_bound_counts_only_hard_failures
    (dev : nat -> bool) (ts : string) (now : Z) (shots : list Shot)
    (s : State) :
  let r := F6.attempt_loop (F6.capture_path ts) now 0 shots
             (F6.cleanup (disk s)) 0 in
  (F6.retries r <= F6.max_retries)%nat /\
  (F6.exit r = F6.ReturnedNone <-> F6.retries r = F6.max_retries) /\
  F6.iterations r
  = (F6.retries r
     + List.length (filter F6.quality_rejected
                      (firstn (F6.iterations r) shots))
     + F6.final_pass (F6.exit r))%nat /\
  ((F6.max_retries <= List.length (filter F6.read_failed shots))%nat ->
   F6.exit r <> F6.StillLooping) /\
  ((forall sh, In sh shots -> F6.quality_rejected sh = true) ->
   F6.exit r = F6.StillLooping /\ F6.iterations r = List.length shots) /\
  (camera_lock s = false -> camera_opened s = true ->
   F6.exit r = F6.ReturnedNone ->
   exists s', F6.capture_image_with_face dev ts now shots s = Ret None s').
Proof.
  intros r.
  destruct (@attempt_loop_accounting (F6.capture_path ts) now shots 0%nat
              (F6.cleanup (disk s)) 0%nat (Nat.le_0_l _))
    as (Hr & Hx & _ & Hi).
  fold r in Hr, Hx, Hi.
  rewrite !Nat.sub_0_r in Hi. split; [lia|]. split; [exact Hx|].
  split; [exact Hi|]. split; [|split].
  - intros H. apply attempt_loop_ends. lia.
  - intros H.
    apply (@attempt_loop_spins (F6.capture_path ts) now shots 0%nat
             (F6.cleanup (disk s)) 0%nat);
      [unfold F6.max_retries; lia|exact H].
  - intros Hl Ho He. rewrite capture_image_with_face_cases, Hl, Ho.
    fold r. rewrite He. eauto.
Qed.

Lemma retry_bound_counts_only_hard_failures_witness :
  exists s',
    F6.capture_image_with_face (fun _ => true) "20250101_120000_000001" 100
      (repeat lost_shot 10) initial_state = Ret None s'.
Proof.
  apply (proj2 (proj2 (proj2 (proj2 (proj2
           (retry_bound_counts_only_hard_failures (fun _ => true)
              "20250101_120000_000001" 100 (repeat lost_shot 10)
              initial_state)))))); reflexivity.
Defined.

(** C1 as written fails: eleven frames that are too dark, then a good one.
    The loop makes twelve passes, more than [max_retries], none of the
    rejections is counted, and the call returns the path. *)
Lemma dark_frames_outlast_retry_bound :
  let shots := repeat dark_shot 11 ++ [good_shot] in
  let r := F6.attempt_loop capture_1 100 0 shots
             (F6.cleanup (disk initial_state)) 0 in
  Forall (fun sh => F6.quality_rejected sh = true) (repeat dark_shot 11) /\
  F6.exit r = F6.ReturnedPath /\
  F6.iterations r = 12%nat /\
  F6.retries r = 0%nat /\
  (F6.max_retries < F6.iterations r)%nat /\
  F6.capture_image_with_face (fun _ => true) "20250101_120000_000001" 100
    shots initial_state
  = Ret (Some capture_1) (set_disk [mkCapFile capture_1 100] initial_state).
Proof.
  cbv zeta. split; [repeat constructor|].
  split; [vm_compute; reflexivity|]. split; [vm_compute; reflexivity|].
  split; [vm_compute; reflexivity|].
  split; [vm_compute; repeat constructor|]. vm_compute. reflexivity.
Qed.

(** ** The capture directory *)

Lemma os_path_exists_true (p : string) (d : Disk) :
  os_path_exists p d = true <-> In p (glob d).
Proof.
  unfold os_path_exists. rewrite existsb_exists. split.
  - intros (q & Hq & E). apply String.eqb_eq in E. now subst.
  - intros H. exists p. split; [exact H|apply String.eqb_refl].
Qed.

Lemma unlink_in (p : string) (d : Disk) (f : CapFile) :
  In f (unlink p d) <-> In f d /\ path f <> p.
Proof.
  unfold unlink. rewrite filter_In, negb_true_iff, String.eqb_neq.
  intuition congruence.
Qed.

Lemma os_path_exists_unlink_same (p : string) (d : Disk) :
  os_path_exists p (unlink p d) = false.
Proof.
  destruct (os_path_exists p (unlink p d)) eqn:E; [|reflexivity].
  apply os_path_exists_true in E. unfold glob in E.
  apply in_map_iff in E. destruct E as (f & Hf & Hin).
  apply unlink_in in Hin. tauto.
Qed.

Lemma os_path_exists_unlink_other (p q : string) (d : Disk) :
  q <> p -> os_path_exists q (unlink p d) = os_path_exists q d.
Proof.
  intros Hne. apply eq_true_iff_eq. rewrite !os_path_exists_true.
  unfold glob. rewrite !in_map_iff. split.
  - intros (f & Hf & Hin). apply unlink_in in Hin. exists f. tauto.
  - intros (f & Hf & Hin). exists f. split; [exact Hf|].
    apply unlink_in. split; [exact Hin|congruence].
Qed.

Lemma latest_in (d : Disk) (f : CapFile) : latest d = Some f -> In f d.
Proof.
  revert f. induction d as [|g rest IH]; simpl; intros f; [discriminate|].
  destruct (latest rest) as [h|].
  - destruct (ctime g <? ctime h)%Z; intros H; injection H as <-; auto.
  - intros H. injection H as <-. auto.
Qed.

(** ** Resolving an authorization *)

(** The state after [remove_latest]: only the directory can differ. *)
Lemma remove_latest_state (s : State) :
  F6.remove_latest (latest (disk s)) s
  = Ret tt (match latest (disk s) with
            | Some f => os_remove (path f) s
            | None => s
            end).
Proof.
  unfold F6.remove_latest.
  destruct (latest (disk s)) as [f|] eqn:E; [|reflexivity].
  unfold bind, gets, modify.
  assert (H : os_path_exists (path f) (disk s) = true).
  { apply os_path_exists_true. unfold glob. apply in_map.
    now apply latest_in. }
  now rewrite H.
Qed.

Lemma authorize_no (s : State) :
  F6.authorize (POST (Some "no")) s
  = Ret (Redirect "/")
        (set_sms_sent false
           (set_pending_authorization false
              (match latest (disk s) with
               | Some f => os_remove (path f) s
               | None => s
               end))).
Proof.
  unfold F6.authorize. unfold bind at 1. unfold gets at 1.
  change (String.eqb "no" "yes") with false.
  change (String.eqb "no" "no") with true. cbv iota.
  unfold bind at 1. rewrite remove_latest_state. reflexivity.
Qed.

Lemma authorize_yes (s : State) :
  F6.authorize (POST (Some "yes")) s
  = Ret (Redirect "/")
        (set_sms_sent false
           (set_pending_authorization false
              (post_sms VehicleStarted
                 (set_vehicle_stopped false
                    (start_motor_thread
                       (match latest (disk s) with
                        | Some f => os_remove (path f) s
                        | None => s
                        end)))))).
Proof.
  unfold F6.authorize. unfold bind at 1. unfold gets at 1.
  change (String.eqb "yes" "yes") with true. cbv iota.
  unfold bind at 1. rewrite remove_latest_state. reflexivity.
Qed.

Lemma CapFile_eq_dec (f g : CapFile) : {f = g} + {f <> g}.
Proof. decide equality; [apply Z.eq_dec|apply string_dec]. Qed.

Lemma latest_some (d : Disk) : d <> [] -> exists f, latest d = Some f.
Proof.
  destruct d as [|f rest]; [contradiction|]. intros _. simpl.
  destruct (latest rest) as [g|]; [|eauto].
  destruct (ctime f <? ctime g)%Z; eauto.
Qed.

(** What [max(..., key=os.path.getctime)] picks: a file no other file is
    newer than, and the newest file when there is one. *)
Lemma latest_greatest (d : Disk) (f : CapFile) :
  latest d = Some f -> forall g, In g d -> (ctime g <= ctime f)%Z.
Proof.
  revert f. induction d as [|h rest IH]; simpl; intros f; [discriminate|].
  destruct (latest rest) as [k|] eqn:E.
  - destruct (ctime h <? ctime k)%Z eqn:C; intros H; injection H as <-;
      intros g [<-|Hg]; try lia.
    + exact (IH k eq_refl g Hg).
    + specialize (IH k eq_refl g Hg). lia.
  - intros H. injection H as <-. intros g [<-|Hg]; [lia|].
    destruct rest; [contradiction|]. simpl in E.
    destruct (latest rest); [destruct (_ <? _)%Z|]; discriminate.
Qed.

Lemma latest_first_greatest (d : Disk) (f : CapFile) :
  latest d = Some f ->
  exists before after,
    d = before ++ f :: after /\
    (forall g, In g before -> (ctime g < ctime f)%Z) /\
    (forall g, In g after -> (ctime g <= ctime f)%Z).
Proof.
  revert f. induction d as [|h rest IH]; simpl; intros f; [discriminate|].
  destruct (latest rest) as [k|] eqn:E.
  - destruct (ctime h <? ctime k)%Z eqn:C; intros H; injection H as <-.
    + destruct (IH k eq_refl) as (before & after & -> & Hb & Ha).
      exists (h :: before), after. split; [reflexivity|]. split; [|exact Ha].
      intros g [<-|Hg]; [lia|now apply Hb].
    + exists [], rest. split; [reflexivity|]. split; [intros g []|].
      intros g Hg. pose proof (latest_greatest _ E g Hg). lia.
  - intros H. injection H as <-. destruct rest as [|r rest'].
    + exists [], []. split; [reflexivity|]. split; intros g [].
    + simpl in E. destruct (latest rest'); [destruct (_ <? _)%Z|];
        discriminate.
Qed.

Lemma latest_newest (d : Disk) (f : CapFile) :
  In f d ->
  (forall g, In g d -> g <> f -> (ctime g < ctime f)%Z) ->
  latest d = Some f.
Proof.
  intros Hin Hnew.
  destruct (latest d) as [k|] eqn:E.
  - pose proof (latest_in _ E) as Hk.
    pose proof (latest_greatest _ E f Hin) as Hle.
    destruct (CapFile_eq_dec k f) as [->|N]; [reflexivity|].
    specialize (Hnew k Hk N). lia.
  - destruct d; [contradiction|]. simpl in E.
    destruct (latest d); [destruct (_ <? _)%Z|]; discriminate.
Qed.

(** C6, as the code has it.  A deny (POST /authorize with action no) made
    while an authorization is pending returns with the pending flag and the
    SMS-sent flag cleared and with one capture deleted: the first file of
    the directory listing that no other capture is newer than, which is the
    one the authorization page shows, and the newest capture when one is
    newer than the rest.  The captures with other names stay on disk.  No motor command is issued: the stopped
    flag, the motor flag, the motor threads, the pins and the messages are
    as they were, so a stopped vehicle is left stopped and idle, and a
    running one is left running. *)
Theorem deny_while_pending_goes_idle (s : State) :
  pending_authorization s = true ->
  exists s',
    F6.authorize (POST (Some "no")) s = Ret (Redirect "/") s' /\
    pending_authorization s' = false /\
    sms_sent_for_current_attempt s' = false /\
    vehicle_stopped s' = vehicle_stopped s /\
    motor_running s' = motor_running s /\
    motor_threads s' = motor_threads s /\
    pins s' = pins s /\
    sms s' = sms s /\
    (disk s = [] -> disk s' = []) /\
    (disk s <> [] ->
     exists f,
       In f (disk s) /\
       (forall g, In g (disk s) -> (ctime g <= ctime f)%Z) /\
       (exists before after,
          disk s = before ++ f :: after /\
          forall g, In g before -> (ctime g < ctime f)%Z) /\
       F6.captured_image s = Ret (Some f) s /\
       disk s' = unlink (path f) (disk s) /\
       os_path_exists (path f) (disk s') = false /\
       (forall g, In g (disk s) -> path g <> path f -> In g (disk s'))) /\
    (forall f,
       In f (disk s) ->
       (forall g, In g (disk s) -> g <> f -> (ctime g < ctime f)%Z) ->
       disk s' = unlink (path f) (disk s) /\
       os_path_exists (path f) (disk s') = false) /\
    (vehicle_stopped s = true ->
     vehicle_stopped s' = true /\ pending_authorization s' = false) /\
    (vehicle_stopped s = false -> vehicle_stopped s' = false).
Proof.
  intros _. eexists. split; [apply authorize_no|].
  assert (Hcase : forall f, latest (disk s) = Some f ->
            disk (match latest (disk s) with
                  | Some f => os_remove (path f) s
                  | None => s
                  end) = unlink (path f) (disk s)).
  { intros f E. rewrite E. reflexivity. }
  split; [reflexivity|]. split; [reflexivity|].
  split; [destruct (latest (disk s)); reflexivity|].
  split; [destruct (latest (disk s)); reflexivity|].
  split; [destruct (latest (disk s)); reflexivity|].
  split; [destruct (latest (disk s)); reflexivity|].
  split; [destruct (latest (disk s)); reflexivity|].
  split; [|split; [|split; [|split]]].
  - intros E. simpl. rewrite E. simpl. exact E.
  - intros Hne. destruct (latest_some Hne) as (f & Hf).
    pose proof (latest_in _ Hf) as Hin.
    exists f. split; [exact Hin|].
    split; [exact (latest_greatest _ Hf)|]. split.
    { destruct (latest_first_greatest _ Hf) as (before & after & E & Hb & _).
      exists before, after. auto. }
    split.
    { unfold F6.captured_image, bind, gets, ret. rewrite Hf.
      assert (Hex : os_path_exists (path f) (disk s) = true).
      { apply os_path_exists_true. unfold glob. now apply in_map. }
      now rewrite Hex. }
    simpl. rewrite (Hcase f Hf).
    split; [reflexivity|]. split; [apply os_path_exists_unlink_same|].
    intros g Hg Hp. apply unlink_in. auto.
  - intros f Hin Hnew. simpl. rewrite (Hcase f (@latest_newest (disk s) f Hin Hnew)).
    split; [reflexivity|apply os_path_exists_unlink_same].
  - intros Hv. simpl. destruct (latest (disk s)); simpl; auto.
  - intros Hv. simpl. destruct (latest (disk s)); simpl; auto.
Qed.

Lemma deny_while_pending_goes_idle_witness :
  pending_authorization awaiting_owner = true /\
  exists s',
    F6.authorize (POST (Some "no")) awaiting_owner = Ret (Redirect "/") s' /\
    pending_authorization s' = false /\
    vehicle_stopped s' = true /\
    motor_threads s' = 0%nat /\
    disk s' = [].
Proof.
  split; [reflexivity|].
  destruct (deny_while_pending_goes_idle awaiting_owner eq_refl)
    as (s' & Hret & Hp & _ & Hv & _ & Ht & _ & _ & _ & _ & Hd & _).
  exists s'. split; [exact Hret|]. split; [exact Hp|].
  split; [rewrite Hv; reflexivity|]. split; [rewrite Ht; reflexivity|].
  assert (Hin : In (mkCapFile capture_1 100) (disk awaiting_owner))
    by (left; reflexivity).
  destruct (Hd (mkCapFile capture_1 100) Hin) as [-> _]; [|reflexivity].
  intros g [<-|[]] N. congruence.
Defined.

(** C6 as written fails on f6.py.  After an unmatched attempt and a matched
    one the vehicle is running with the authorization still pending, and a
    deny then leaves it running.  After two unmatched attempts a deny
    deletes the capture of the second, and the capture of the first, the one
    the alert was sent about, stays on disk. *)
Lemma deny_leaves_the_vehicle_running :
  let running :=
    F6.serve line_distance two_profiles (fun _ => true)
      [F6.StartVehicle stranger; F6.StartVehicle owner] initial_state in
  let twice :=
    F6.serve line_distance two_profiles (fun _ => true)
      [F6.StartVehicle stranger; F6.StartVehicle second_stranger]
      initial_state in
  (pending_authorization running = true /\
   vehicle_stopped running = false /\
   exists s',
     F6.authorize (POST (Some "no")) running = Ret (Redirect "/") s' /\
     pending_authorization s' = false /\
     vehicle_stopped s' = false /\
     motor_threads s' = 1%nat) /\
  (pending_authorization twice = true /\
   sms twice = [UnauthorizedAttempt] /\
   glob (disk twice) = [capture_1; capture_2] /\
   exists s',
     F6.authorize (POST (Some "no")) twice = Ret (Redirect "/") s' /\
     pending_authorization s' = false /\
     disk s' = [mkCapFile capture_1 100]).
Proof.
  split.
  - split; [vm_compute; reflexivity|]. split; [vm_compute; reflexivity|].
    eexists. split; [apply authorize_no|]. vm_compute. auto.
  - split; [vm_compute; reflexivity|]. split; [vm_compute; reflexivity|].
    split; [vm_compute; reflexivity|].
    eexists. split; [apply authorize_no|]. vm_compute. auto.
Qed.

(** C2, as the code has it.  POST /authorize does not look at
    [pending_authorization].  With nothing pending, a deny starts no motor
    thread and leaves the stopped flag, the motor flag, the pins and the
    messages alone, and the pending flag stays false, but it deletes the
    most recent capture file if there is one; an approve deletes that file
    too, starts a motor thread, marks the vehicle as not stopped and sends
    the start message. *)
Theorem resolve_ignores_pending_flag (s : State) :
  pending_authorization s = false ->
  let after_removal :=
    match latest (disk s) with
    | Some f => unlink (path f) (disk s)
    | None => disk s
    end in
  (exists s',
      F6.authorize (POST (Some "no")) s = Ret (Redirect "/") s' /\
      motor_threads s' = motor_threads s /\
      vehicle_stopped s' = vehicle_stopped s /\
      motor_running s' = motor_running s /\
      pins s' = pins s /\
      sms s' = sms s /\
      pending_authorization s' = false /\
      disk s' = after_removal)
  /\
  (exists s',
      F6.authorize (POST (Some "yes")) s = Ret (Redirect "/") s' /\
      motor_threads s' = S (motor_threads s) /\
      vehicle_stopped s' = false /\
      sms s' = sms s ++ [VehicleStarted] /\
      pending_authorization s' = false /\
      disk s' = after_removal).
Proof.
  intros _ after_removal. subst after_removal. split.
  - eexists. split; [apply authorize_no|].
    destruct (latest (disk s)); simpl; repeat split; reflexivity.
  - eexists. split; [apply authorize_yes|].
    destruct (latest (disk s)); simpl; repeat split; reflexivity.
Qed.

Lemma resolve_ignores_pending_flag_witness :
  pending_authorization idle_with_capture = false /\
  (exists s',
      F6.authorize (POST (Some "no")) idle_with_capture
      = Ret (Redirect "/") s' /\
      motor_threads s' = 0%nat /\ disk s' = []) /\
  (exists s',
      F6.authorize (POST (Some "yes")) idle_with_capture
      = Ret (Redirect "/") s' /\
      motor_threads s' = 1%nat /\ vehicle_stopped s' = false).
Proof.
  split; [reflexivity|].
  destruct (resolve_ignores_pending_flag idle_with_capture eq_refl)
    as [(s1 & H1 & Ht1 & _ & _ & _ & _ & _ & Hd1)
        (s2 & H2 & Ht2 & Hv2 & _)].
  split.
  - exists s1. split; [exact H1|]. split; [exact Ht1|exact Hd1].
  - exists s2. split; [exact H2|]. split; [exact Ht2|exact Hv2].
Defined.

(** C2 as written fails: with nothing pending, an approve starts a motor
    thread, marks the vehicle as not stopped and deletes the capture file,
    and a deny deletes the capture file. *)
Lemma approve_with_nothing_pending_starts_motor :
  pending_authorization idle_with_capture = false /\
  vehicle_stopped idle_with_capture = true /\
  motor_threads idle_with_capture = 0%nat /\
  disk idle_with_capture = [mkCapFile capture_1 100] /\
  F6.authorize (POST (Some "yes")) idle_with_capture
  = Ret (Redirect "/")
        (mkState false false false false false false true [] 1 []
           [VehicleStarted]) /\
  F6.authorize (POST (Some "no")) idle_with_capture
  = Ret (Redirect "/")
        (mkState false true false false false false true [] 0 [] []).
Proof.
  repeat split.
Qed.

(** ** Running while pending *)

(** C5, at the failing input: a stranger's attempt leaves the vehicle
    stopped and an authorization pending; the owner's attempt that follows
    is matched, starts the motor thread and marks the vehicle as not
    stopped, and [pending_authorization] is still set. *)
Lemma match_while_pending_runs_and_stays_pending :
  let start := F6.start_motor_web line_distance two_profiles (fun _ => true) in
  let s1 := state_of (start stranger initial_state) in
  let s2 := state_of (start owner s1) in
  start stranger initial_state = Ret tt s1 /\
  vehicle_stopped s1 = true /\
  pending_authorization s1 = true /\
  start owner s1 = Ret tt s2 /\
  vehicle_stopped s2 = false /\
  motor_threads s2 = 1%nat /\
  sms s2 = [UnauthorizedAttempt; VehicleStarted] /\
  sms_sent_for_current_attempt s2 = false /\
  pending_authorization s2 = true.
Proof.
  cbv zeta.
  repeat match goal with
         | |- _ /\ _ => split
         end; vm_compute; reflexivity.
Qed.

(** ** Stopping the motor *)








(** The one further step can happen: the flag goes down just after the
    thread's test, and the pattern is still written. *)
Lemma one_more_step_after_stop :
  F6.interleave (fun _ => true) (repeat F6.MotorTurn 6) (F6.SetStep 2)
    (state_of (F6.stop_motor (fun _ => true) cruising))
  = (F6.Finished,
     mkState false true false false false false true [] 1
       [[0; 0; 0; 0]; [0; 1; 0; 0]; [0; 0; 0; 0]]%Z [VehicleStarted],
     1%nat).
Proof. vm_compute. reflexivity. Qed.

(** ** Clearing out earlier captures *)

Lemma leb_trans : Transitive (fun a b => is_true (StringOrder.leb a b)).
Proof.
  intros a b c. unfold is_true, StringOrder.leb.
  destruct (String_as_OT.compare_spec a b) as [->|Hab|Hab]; auto;
    [|discriminate].
  destruct (String_as_OT.compare_spec b c) as [<-|Hbc|Hbc]; intros _;
    [|intros _|discriminate].
  - unfold String_as_OT.lt in Hab. now rewrite Hab.
  - assert (H : String_as_OT.lt a c)
      by (eapply String_as_OT.lt_strorder; eauto).
    unfold String_as_OT.lt in H. now rewrite H.
Qed.

Lemma leb_refl (a : string) : StringOrder.leb a a = true.
Proof.
  unfold StringOrder.leb.
  destruct (String_as_OT.compare_spec a a) as [_|H|H]; auto;
    exfalso; revert H; apply String_as_OT.lt_strorder.
Qed.

Lemma in_removelast_or_last (l : list string) (x : string) :
  In x l -> In x (removelast l) \/ x = last l "".
Proof.
  intros H. destruct l as [|a l']; [contradiction|].
  rewrite (@app_removelast_last _ (a :: l') "") in H by discriminate.
  apply in_app_or in H. destruct H as [H|[H|[]]]; auto.
Qed.

Lemma StronglySorted_last (l : list string) :
  StronglySorted (fun a b => is_true (StringOrder.leb a b)) l ->
  forall x, In x l -> StringOrder.leb x (last l "") = true.
Proof.
  induction 1 as [|a l' Hl' IH Ha]; intros x Hx; [contradiction|].
  destruct l' as [|b l''].
  - destruct Hx as [<-|[]]. apply leb_refl.
  - change (last (a :: b :: l'') "") with (last (b :: l'') "").
    destruct Hx as [<-|Hx]; [|now apply IH].
    rewrite Forall_forall in Ha. apply Ha.
    destruct (@exists_last _ (b :: l'')) as (l0 & z & E); [discriminate|].
    rewrite E, last_last. apply in_or_app. right. now left.
Qed.

Lemma fold_unlink_in (ps : list string) :
  forall (d : Disk) (f : CapFile),
  In f (fold_left (fun d' old_img => unlink old_img d') ps d)
  <-> In f d /\ ~ In (path f) ps.
Proof.
  induction ps as [|p ps IH]; intros d f; simpl; [tauto|].
  rewrite IH, unlink_in. intuition congruence.
Qed.

Lemma fold_unlink_NoDup (ps : list string) :
  forall d : Disk,
  NoDup (glob d) ->
  NoDup (glob (fold_left (fun d' old_img => unlink old_img d') ps d)).
Proof.
  induction ps as [|p ps IH]; intros d H; simpl; [exact H|].
  apply IH. clear IH. unfold unlink, glob in *.
  induction d as [|f d IHd]; simpl; [constructor|].
  inversion H as [|? ? Hn Hd]; subst.
  destruct (negb (p =? path f)%string); simpl; [|now apply IHd].
  constructor; [|now apply IHd].
  intros Hin. apply Hn. apply in_map_iff in Hin.
  destruct Hin as (g & Hg & Hin). apply filter_In in Hin.
  apply in_map_iff. exists g. tauto.
Qed.

Lemma same_path_short (l : Disk) (p : string) :
  NoDup (glob l) ->
  (forall f, In f l -> path f = p) ->
  (List.length l <= 1)%nat.
Proof.
  intros Hnd Hall. destruct l as [|f [|g l']]; simpl; try lia.
  exfalso. inversion Hnd as [|? ? Hn _]; subst. apply Hn. simpl. left.
  rewrite (Hall f), (Hall g); simpl; auto.
Qed.

Lemma cleanup_in (d : Disk) (f : CapFile) :
  In f (F6.cleanup d)
  <-> In f d /\ ~ In (path f) (all_but_last (sorted (glob d))).
Proof. unfold F6.cleanup. apply fold_unlink_in. Qed.

(** What the clean-up keeps is named like the last of the sorted names. *)
Lemma cleanup_survivor (d : Disk) (f : CapFile) :
  In f (F6.cleanup d) ->
  In f d /\ path f = last (sorted (glob d)) "".
Proof.
  intros H. apply cleanup_in in H. destruct H as [Hin Hnot].
  split; [exact Hin|].
  assert (Hs : In (path f) (sorted (glob d))).
  { apply (Permutation_in _ (StringSort.Permuted_sort (glob d))).
    unfold glob. now apply in_map. }
  apply in_removelast_or_last in Hs. destruct Hs as [Hs|Hs]; [|exact Hs].
  contradiction.
Qed.

Lemma cleanup_short (d : Disk) :
  NoDup (glob d) -> (List.length (F6.cleanup d) <= 1)%nat.
Proof.
  intros H. apply (@same_path_short _ (last (sorted (glob d)) "")).
  - unfold F6.cleanup. now apply fold_unlink_NoDup.
  - intros f Hf. now apply cleanup_survivor.
Qed.

Lemma cleanup_keeps_greatest (d : Disk) (f g : CapFile) :
  In f (F6.cleanup d) -> In g d ->
  StringOrder.leb (path g) (path f) = true.
Proof.
  intros Hf Hg. apply cleanup_survivor in Hf. destruct Hf as [_ ->].
  apply StronglySorted_last.
  - apply StringSort.StronglySorted_sort. exact leb_trans.
  - apply (Permutation_in _ (StringSort.Permuted_sort (glob d))).
    unfold glob. now apply in_map.
Qed.

(** The loop leaves the directory alone unless it returns a path after a
    successful write. *)
Lemma attempt_loop_disk p now shots :
  forall rc d k,
  F6.disk_after (F6.attempt_loop p now rc shots d k) = d \/
  (F6.exit (F6.attempt_loop p now rc shots d k) = F6.ReturnedPath /\
   F6.disk_after (F6.attempt_loop p now rc shots d k)
   = unlink p d ++ [mkCapFile p now]).
Proof.
  induction shots as [|sh rest IH]; intros rc d k.
  - rewrite attempt_loop_nil. destruct (F6.max_retries <=? rc)%nat; now left.
  - rewrite attempt_loop_cons.
    destruct (F6.max_retries <=? rc)%nat; [now left|].
    destruct (retrieved sh) as [fr|]; [|apply IH].
    destruct (F6.inspect fr); [|apply IH|now left].
    unfold imwrite. destruct (write_ok sh).
    + assert (E : os_path_exists p (unlink p d ++ [mkCapFile p now]) = true).
      { apply os_path_exists_true. unfold glob. rewrite map_app.
        apply in_or_app. right. now left. }
      rewrite E. right. split; reflexivity.
    + destruct (os_path_exists p d); [now left|apply IH].
Qed.

Lemma imwrite_NoDup (p : string) (now : Z) (d : Disk) :
  NoDup (glob d) -> NoDup (glob (unlink p d ++ [mkCapFile p now])).
Proof.
  intros H. unfold glob. rewrite map_app. apply NoDup_app.
  - apply (@fold_unlink_NoDup [p] d H).
  - simpl. constructor; [tauto|constructor].
  - intros a Ha [<-|[]]. apply in_map_iff in Ha.
    destruct Ha as (f & Hf & Hin). apply unlink_in in Hin. tauto.
Qed.






(** ** The camera lock *)

(** [capture_image_with_face] calls [initialize_camera] while it holds
    [camera_lock], and [initialize_camera] takes the same lock: with the
    camera closed the call never returns. *)
Lemma capture_blocks_when_camera_closed dev ts now shots s :
  camera_opened s = false ->
  exists s', F6.capture_image_with_face dev ts now shots s = Deadlock s'.
Proof.
  intros H. rewrite capture_image_with_face_cases, H.
  destruct (camera_lock s); eauto.
Qed.

Lemma capture_keeps_pending dev ts now shots s :
  pending_authorization
    (state_of (F6.capture_image_with_face dev ts now shots s))
  = pending_authorization s.
Proof.
  rewrite capture_image_with_face_cases.
  destruct (camera_lock s); [reflexivity|].
  destruct (camera_opened s); [|reflexivity].
  destruct (F6.exit _); reflexivity.
Qed.

(** ** A start attempt never clears the pending flag *)

Lemma start_vehicle_with_face_keeps_pending
    (Encoding : Type) (fd : Encoding -> Encoding -> Q)
    (refs : list (string * Encoding)) (dev : nat -> bool)
    (a : F6.Attempt Encoding) (s : State) :
  pending_authorization s = true ->
  pending_authorization
    (state_of (F6.start_vehicle_with_face fd refs dev a s)) = true.
Proof.
  intros Hp.
  unfold F6.start_vehicle_with_face, F6.ensure_camera, F6.initialize_camera,
    bind, gets, ret, modify, with_camera_lock.
  destruct (face_recognition_active s) eqn:Ha; simpl; [|exact Hp].
  destruct (camera_lock s) eqn:Hl; simpl; [exact Hp|].
  destruct (camera_opened s) eqn:Ho; simpl; [|exact Hp].
  destruct (vehicle_stopped s) eqn:Hv; simpl; [|exact Hp].
  rewrite Ha.
  destruct (F6.wait_for_sensor true (F6.readings a)); simpl; try exact Hp.
  match goal with
  | |- context [F6.capture_image_with_face dev ?ts ?now ?shots ?s0] =>
    pose proof (capture_keeps_pending dev ts now shots s0) as Hc;
    destruct (F6.capture_image_with_face dev ts now shots s0)
      as [[p|] s1|s1|s1|s1]
  end; simpl in Hc |- *; try (rewrite Hc; exact Hp).
  destruct (F6.compare_faces fd refs p (F6.captured_encodings a) (disk s1))
    as [[|] trail]; simpl.
  - rewrite Hc. exact Hp.
  - destruct (sms_sent_for_current_attempt s1); reflexivity.
Qed.

(** ** The earlier variant final2.py *)

(** Its gate asks for light and for some face, and for nothing else. *)
Lemma Final2_inspect_good (fr : Frame) :
  Final2.inspect fr = Good <->
  (30 <= brightness fr)%Q /\ face_locations fr <> [].
Proof.
  unfold Final2.inspect.
  destruct (Qltb (brightness fr) 30) eqn:Hb.
  - apply Qltb_lt in Hb. split; [discriminate|].
    intros [H _]. exfalso. exact (Qlt_not_le _ _ Hb H).
  - apply Qltb_ge in Hb.
    destruct (face_locations fr); split; try discriminate; try tauto.
    intros _. split; [exact Hb|discriminate].
Qed.

(** A dim frame with two small faces in a corner is returned by final2.py
    and turned away by f6.py. *)
Lemma Final2_returns_a_crowded_frame :
  let crowd := mkFrame 640 480 35 [mkFace 0 40 40 0; mkFace 0 90 40 50] None in
  F6.exit (Final2.attempt_loop capture_1 100 0 [mkShot (Some crowd) true]
             [] 0) = F6.ReturnedPath /\
  F6.inspect crowd = Reject TooDark.
Proof. split; vm_compute; reflexivity. Qed.

(** Its match test is the library's single tolerance. *)
Lemma Final2_is_match_spec (d : Q) :
  Final2.is_match d = true <-> (d <= round64 (6 # 10))%Q.
Proof. unfold Final2.is_match. apply Qle_bool_iff. Qed.

(** Its deny clears the flags and leaves the capture directory as it is. *)
Lemma Final2_deny_keeps_files (s : State) :
  Final2.authorize_post (Some "no") s
  = Ret (Redirect "/") (set_sms_sent false (set_pending_authorization false s))
  /\ disk (set_sms_sent false (set_pending_authorization false s)) = disk s.
Proof. split; reflexivity. Qed.

(** Its loop, too, counts only failed reads. *)
Lemma Final2_waits_past_its_retry_bound :
  let r := Final2.attempt_loop capture_1 100 0
             (repeat dark_shot 6 ++ [good_shot]) [] 0 in
  F6.exit r = F6.ReturnedPath /\ F6.iterations r = 7%nat /\
  F6.retries r = 0%nat /\ (Final2.max_retries < F6.iterations r)%nat.
Proof.
  cbv zeta. repeat match goal with |- _ /\ _ => split end;
    vm_compute; try reflexivity. repeat constructor.
Qed.

(** ** The capture an unmatched attempt leaves for the owner *)

Lemma latest_app_newest (d : Disk) (f : CapFile) :
  (forall g, In g d -> (ctime g < ctime f)%Z) ->
  latest (d ++ [f]) = Some f.
Proof.
  induction d as [|g d IH]; intros H; simpl; [reflexivity|].
  rewrite IH by (intros; apply H; now right).
  assert (Hg : (ctime g < ctime f)%Z) by (apply H; now left).
  apply Z.ltb_lt in Hg. now rewrite Hg.
Qed.

(** After a call that returns a path, the newest file in the directory is
    the one at that path. *)
Lemma capture_returns_latest dev ts now shots s s' p :
  NoDup (glob (disk s)) ->
  (forall g, In g (disk s) -> (ctime g < now)%Z) ->
  F6.capture_image_with_face dev ts now shots s = Ret (Some p) s' ->
  p = F6.capture_path ts /\
  exists f, latest (disk s') = Some f /\ path f = p.
Proof.
  intros Hnd Hold. rewrite capture_image_with_face_cases.
  destruct (camera_lock s); [discriminate|].
  destruct (camera_opened s); [|discriminate].
  destruct (F6.exit _) eqn:Ex; try discriminate.
  intros H. injection H as <- <-. split; [reflexivity|]. simpl.
  destruct (attempt_loop_returned _ _ _ _ _ _ Ex)
    as (_ & _ & _ & _ & _ & _ & _ & Hd).
  destruct (attempt_loop_disk (F6.capture_path ts) now shots 0
              (F6.cleanup (disk s)) 0) as [Hr|[_ Hr]]; rewrite Hr in *.
  - (* nothing was written: the path is that of the one earlier file *)
    apply os_path_exists_true in Hd. unfold glob in Hd.
    apply in_map_iff in Hd. destruct Hd as (f & Hf & Hin).
    pose proof (cleanup_short (disk s) Hnd) as Hlen.
    destruct (F6.cleanup (disk s)) as [|g [|h l]]; simpl in Hlen;
      [contradiction| |lia].
    destruct Hin as [->|[]]. exists f. split; [reflexivity|exact Hf].
  - exists (mkCapFile (F6.capture_path ts) now). split; [|reflexivity].
    apply latest_app_newest. intros g Hg. simpl.
    apply unlink_in in Hg. destruct Hg as [Hg _].
    apply cleanup_survivor in Hg. apply Hold. tauto.
Qed.

Lemma capture_keeps_controls dev ts now shots s :
  vehicle_stopped (state_of (F6.capture_image_with_face dev ts now shots s))
  = vehicle_stopped s /\
  motor_threads (state_of (F6.capture_image_with_face dev ts now shots s))
  = motor_threads s.
Proof.
  rewrite capture_image_with_face_cases.
  destruct (camera_lock s); [split; reflexivity|].
  destruct (camera_opened s); [|split; reflexivity].
  destruct (F6.exit _); split; reflexivity.
Qed.

(** An attempt that ends with an authorization newly pending has left its
    capture as the newest file, which is the one a deny then removes. *)
Lemma unmatched_attempt_leaves_its_capture
    (Encoding : Type) (fd : Encoding -> Encoding -> Q)
    (refs : list (string * Encoding)) (dev : nat -> bool)
    (a : F6.Attempt Encoding) (s s' : State) :
  NoDup (glob (disk s)) ->
  (forall g, In g (disk s) -> (ctime g < F6.now a)%Z) ->
  pending_authorization s = false ->
  F6.start_vehicle_with_face fd refs dev a s = Ret tt s' ->
  pending_authorization s' = true ->
  vehicle_stopped s' = true /\
  motor_threads s' = motor_threads s /\
  exists f,
    latest (disk s') = Some f /\
    path f = F6.capture_path (F6.timestamp a).
Proof.
  intros Hnd Hold Hp.
  unfold F6.start_vehicle_with_face, F6.ensure_camera, F6.initialize_camera,
    bind, gets, ret, modify, with_camera_lock.
  destruct (face_recognition_active s) eqn:Ha; simpl;
    [|intros H; injection H as <-; congruence].
  destruct (camera_lock s) eqn:Hl; simpl; [discriminate|].
  destruct (camera_opened s) eqn:Ho; simpl; [|discriminate].
  destruct (vehicle_stopped s) eqn:Hv; simpl;
    [|intros H; injection H as <-; simpl; congruence].
  rewrite Ha.
  destruct (F6.wait_for_sensor true (F6.readings a)); simpl;
    try discriminate; try (intros H; injection H as <-; simpl; congruence).
  match goal with
  | |- context [F6.capture_image_with_face dev ?ts ?now ?shots ?s0] =>
    pose proof (capture_keeps_pending dev ts now shots s0) as Hc;
    pose proof (capture_keeps_controls dev ts now shots s0) as Hk;
    pose proof (fun s1 p => @capture_returns_latest dev ts now shots s0 s1 p
                              Hnd Hold) as Hlatest;
    destruct (F6.capture_image_with_face dev ts now shots s0)
      as [[p|] s1|s1|s1|s1]
  end; simpl in Hc, Hk; try discriminate;
    try (intros H; injection H as <-; simpl; congruence).
  destruct (Hlatest s1 p eq_refl) as (-> & f & Hf & Hpath).
  destruct Hk as [Hv1 Ht1]. rewrite Hv in Hv1.
  destruct (F6.compare_faces fd refs (F6.capture_path (F6.timestamp a))
              (F6.captured_encodings a) (disk s1)) as [[|] trail]; simpl.
  - intros H. injection H as <-. simpl. congruence.
  - destruct (sms_sent_for_current_attempt s1); simpl;
      intros H; injection H as <-; simpl; intros _; eauto.
Qed.

(** * Further properties of the code *)

(** ** The quality gate, both ways *)

(** X1.  The gate of f6.py accepts a frame exactly when it is bright
    enough, shows one face, large enough and centred in a frame whose
    centre is not at pixel 0, and the eye line, if measured, is level. *)
Theorem inspect_accepts_exactly_the_good_frames (fr : Frame) :
  F6.inspect fr = Good <->
  (F6.min_brightness <= brightness fr)%Q /\
  exists f,
    face_locations fr = [f] /\
    (F6.min_face_size <= F6.face_width f)%Z /\
    (F6.min_face_size <= F6.face_height f)%Z /\
    F6.frame_center_x fr <> 0%Z /\
    F6.frame_center_y fr <> 0%Z /\
    (F6.x_offset fr f <= 2 # 10)%Q /\
    (F6.y_offset fr f <= 2 # 10)%Q /\
    (forall a, eye_angle fr = Some a -> (Qabs a <= 15)%Q).
Proof.
  unfold F6.inspect. split.
  - destruct (Qltb (brightness fr) F6.min_brightness) eqn:Hb; [discriminate|].
    apply Qltb_ge in Hb.
    destruct (face_locations fr) as [|f others]; [discriminate|].
    destruct ((F6.face_width f <? F6.min_face_size)%Z
              || (F6.face_height f <? F6.min_face_size)%Z) eqn:Hs;
      [discriminate|].
    apply orb_false_iff in Hs. destruct Hs as [Hw Hh].
    apply Z.ltb_ge in Hw, Hh.
    destruct ((F6.frame_center_x fr =? 0)%Z
              || (F6.frame_center_y fr =? 0)%Z) eqn:Hz; [discriminate|].
    apply orb_false_iff in Hz. destruct Hz as [Hzx Hzy].
    apply Z.eqb_neq in Hzx, Hzy.
    destruct (Qltb (2 # 10) (F6.x_offset fr f)
              || Qltb (2 # 10) (F6.y_offset fr f)) eqn:Hc; [discriminate|].
    apply orb_false_iff in Hc. destruct Hc as [Hx Hy].
    apply Qltb_ge in Hx, Hy.
    destruct others; [|discriminate].
    intros Ha. split; [exact Hb|]. exists f. repeat split; auto.
    intros a Ea. rewrite Ea in Ha.
    destruct (Qltb 15 (Qabs a)) eqn:Hr; [discriminate|].
    now apply Qltb_ge in Hr.
  - intros (Hb & f & -> & Hw & Hh & Hzx & Hzy & Hx & Hy & Ha).
    apply Qltb_ge in Hb. rewrite Hb.
    apply Z.ltb_ge in Hw, Hh. rewrite Hw, Hh. simpl.
    apply Z.eqb_neq in Hzx, Hzy. rewrite Hzx, Hzy. simpl.
    apply Qltb_ge in Hx, Hy. rewrite Hx, Hy. simpl.
    destruct (eye_angle fr) as [a|]; [|reflexivity].
    specialize (Ha a eq_refl). apply Qltb_ge in Ha. now rewrite Ha.
Qed.

Lemma inspect_in_frame_divides (fr : Frame) :
  (forall f others, face_locations fr = f :: others ->
     (0 <= left f)%Z /\ (right f <= frame_width fr)%Z /\
     (0 <= top f)%Z /\ (bottom f <= frame_height fr)%Z) ->
  F6.inspect fr <> ZeroDivision.
Proof.
  intros Hin. unfold F6.inspect.
  destruct (Qltb (brightness fr) F6.min_brightness); [discriminate|].
  destruct (face_locations fr) as [|f others] eqn:Ef; [discriminate|].
  destruct (Hin f others eq_refl) as (Hl & Hr & Ht & Hb).
  destruct ((F6.face_width f <? F6.min_face_size)%Z
            || (F6.face_height f <? F6.min_face_size)%Z) eqn:Hs;
    [discriminate|].
  apply orb_false_iff in Hs. destruct Hs as [Hw Hh].
  apply Z.ltb_ge in Hw, Hh.
  unfold F6.face_width, F6.face_height, F6.min_face_size in Hw, Hh.
  assert (Hx : (F6.frame_center_x fr =? 0)%Z = false).
  { apply Z.eqb_neq. unfold F6.frame_center_x.
    assert (75 <= frame_width fr / 2)%Z by (apply Z.div_le_lower_bound; lia).
    lia. }
  assert (Hy : (F6.frame_center_y fr =? 0)%Z = false).
  { apply Z.eqb_neq. unfold F6.frame_center_y.
    assert (75 <= frame_height fr / 2)%Z by (apply Z.div_le_lower_bound; lia).
    lia. }
  rewrite Hx, Hy. simpl.
  destruct (Qltb (2 # 10) (F6.x_offset fr f)
            || Qltb (2 # 10) (F6.y_offset fr f)); [discriminate|].
  destruct others; [|discriminate].
  destruct (eye_angle fr) as [a|]; [|discriminate].
  destruct (Qltb 15 (Qabs a)); discriminate.
Qed.

(** X2.  When the first face box of every frame lies inside its frame, as
    the detector delivers them, the centring test never divides by zero
    and the attempt loop never leaves by an exception. *)
Theorem capture_never_raises_on_boxes_inside_the_frame
    (p : string) (now : Z) (shots : list Shot) (d : Disk) :
  (forall sh fr f others,
     In sh shots -> retrieved sh = Some fr ->
     face_locations fr = f :: others ->
     (0 <= left f)%Z /\ (right f <= frame_width fr)%Z /\
     (0 <= top f)%Z /\ (bottom f <= frame_height fr)%Z) ->
  F6.exit (F6.attempt_loop p now 0 shots d 0) <> F6.Raised.
Proof.
  generalize 0%nat at 1 as rc. generalize 0%nat as k. revert d.
  induction shots as [|sh rest IH]; intros d k rc Hin.
  - rewrite attempt_loop_nil. destruct (F6.max_retries <=? rc)%nat;
      discriminate.
  - rewrite attempt_loop_cons.
    destruct (F6.max_retries <=? rc)%nat; [discriminate|].
    assert (Hrest : forall sh0 fr f others,
      In sh0 rest -> retrieved sh0 = Some fr ->
      face_locations fr = f :: others ->
      (0 <= left f)%Z /\ (right f <= frame_width fr)%Z /\
      (0 <= top f)%Z /\ (bottom f <= frame_height fr)%Z)
      by (intros; eapply Hin; eauto; now right).
    destruct (retrieved sh) as [fr|] eqn:Er; [|now apply IH].
    pose proof (inspect_in_frame_divides fr
                  (fun f others => Hin sh fr f others (or_introl eq_refl) Er))
      as Hz.
    destruct (F6.inspect fr); [|now apply IH|contradiction].
    destruct (os_path_exists p (imwrite p now (write_ok sh) d));
      [discriminate|now apply IH].
Qed.

Lemma capture_never_raises_on_boxes_inside_the_frame_witness :
  F6.exit (F6.attempt_loop capture_1 100 0 [dark_shot; good_shot] [] 0)
  <> F6.Raised.
Proof.
  apply capture_never_raises_on_boxes_inside_the_frame.
  intros sh fr f others [<-|[<-|[]]] Hr Hf;
    vm_compute in Hr; inversion Hr; subst fr;
    vm_compute in Hf; inversion Hf; subst f;
    vm_compute; repeat split; discriminate.
Defined.

(** A frame one pixel wide with a large face box does raise. *)
Lemma narrow_frame_divides_by_zero :
  F6.inspect (mkFrame 1 480 120 [mkFace 140 420 340 220] None) = ZeroDivision.
Proof. reflexivity. Qed.

Lemma capture_leaves_controls_alone
    (dev : nat -> bool) (ts : string) (now : Z) (shots : list Shot)
    (s : State) :
  let res := F6.capture_image_with_face dev ts now shots s in
  let s' := state_of res in
  motor_running s' = motor_running s /\
  vehicle_stopped s' = vehicle_stopped s /\
  pending_authorization s' = pending_authorization s /\
  sms_sent_for_current_attempt s' = sms_sent_for_current_attempt s /\
  face_recognition_active s' = face_recognition_active s /\
  camera_opened s' = camera_opened s /\
  motor_threads s' = motor_threads s /\
  pins s' = pins s /\
  sms s' = sms s /\
  (forall r, res = Ret r s' -> camera_lock s' = false) /\
  (res = Exn s' -> camera_lock s' = false).
Proof.
  intros res s'. subst s' res. rewrite capture_image_with_face_cases.
  destruct (camera_lock s) eqn:Hl; simpl;
    [repeat split; try reflexivity; congruence|].
  destruct (camera_opened s) eqn:Ho; simpl;
    [|repeat split; try reflexivity; congruence].
  destruct (F6.exit _); simpl; repeat split; try reflexivity; congruence.
Qed.

(** X3.  [capture_image_with_face] touches nothing but the capture
    directory: the flags, the camera, the motor threads, the pins and the
    messages are as before, and the lock is free again whenever the call
    returns or raises. *)
Theorem capture_touches_only_the_directory
    (dev : nat -> bool) (ts : string) (now : Z) (shots : list Shot)
    (s : State) :
  let res := F6.capture_image_with_face dev ts now shots s in
  let s' := state_of res in
  motor_running s' = motor_running s /\
  vehicle_stopped s' = vehicle_stopped s /\
  pending_authorization s' = pending_authorization s /\
  sms_sent_for_current_attempt s' = sms_sent_for_current_attempt s /\
  face_recognition_active s' = face_recognition_active s /\
  camera_opened s' = camera_opened s /\
  motor_threads s' = motor_threads s /\
  pins s' = pins s /\
  sms s' = sms s /\
  (forall r, res = Ret r s' -> camera_lock s' = false) /\
  (res = Exn s' -> camera_lock s' = false).
Proof. exact (capture_leaves_controls_alone dev ts now shots s). Qed.

(** ** The matcher at its edges *)

(** X4.  [compare_faces] answers false without looking at any reference
    when the capture file is missing or no encoding was found in it, and
    answers false when no reference was loaded. *)
Theorem compare_faces_without_material
    (Encoding : Type) (fd : Encoding -> Encoding -> Q)
    (refs : list (string * Encoding)) (p : string)
    (encs : list Encoding) (d : Disk) :
  os_path_exists p d = false \/ encs = [] \/ refs = [] ->
  fst (F6.compare_faces fd refs p encs d) = false /\
  examined (snd (F6.compare_faces fd refs p encs d)) = [].
Proof.
  unfold F6.compare_faces. intros [H|[H|H]].
  - rewrite H. simpl. auto.
  - subst encs. destruct (os_path_exists p d); simpl; auto.
  - subst refs. destruct (os_path_exists p d); simpl; [|auto].
    destruct encs; simpl; auto.
Qed.

Lemma compare_faces_without_material_witness :
  fst (F6.compare_faces line_distance two_profiles capture_2 [3 # 10]
         one_capture) = false /\
  examined (snd (F6.compare_faces line_distance two_profiles capture_2
                   [3 # 10] one_capture)) = [].
Proof.
  apply compare_faces_without_material. left. reflexivity.
Defined.

Lemma existsb_Permutation (A : Type) (f : A -> bool) (l l' : list A) :
  Permutation l l' -> existsb f l = existsb f l'.
Proof.
  intros H. apply eq_true_iff_eq. rewrite !existsb_exists.
  split; intros (x & Hx & Hf); exists x; split; auto.
  - now apply (Permutation_in _ H).
  - now apply (Permutation_in _ (Permutation_sym H)).
Qed.

(** X5.  The answer of [compare_faces] does not depend on the order in
    which the reference images were loaded; only the audit trail does. *)
Theorem compare_faces_order_independent
    (Encoding : Type) (fd : Encoding -> Encoding -> Q)
    (refs refs' : list (string * Encoding)) (p : string)
    (encs : list Encoding) (d : Disk) :
  Permutation refs refs' ->
  fst (F6.compare_faces fd refs p encs d)
  = fst (F6.compare_faces fd refs' p encs d).
Proof.
  intros H. unfold F6.compare_faces.
  destruct (os_path_exists p d); simpl; [|reflexivity].
  destruct encs as [|cap others]; simpl; [reflexivity|].
  rewrite !compare_with_found. now apply existsb_Permutation.
Qed.

Lemma compare_faces_order_independent_witness :
  fst (F6.compare_faces line_distance three_profiles capture_1 [0%Q]
         one_capture)
  = fst (F6.compare_faces line_distance (rev three_profiles) capture_1 [0%Q]
           one_capture).
Proof.
  apply compare_faces_order_independent. apply Permutation_rev.
Defined.

(** X6.  In 2.py the test [face_distance < 0.7 and confidence > 50], with
    the confidence computed in floating point, is a single threshold on the
    distance, and the distance conjunct adds nothing.  Every distance up to
    0.4999999999999999 passes and every distance from 0.49999999999999994
    on fails, so a float passes exactly when it is at most
    0.4999999999999999: a passing distance is below 0.5, and the float next
    below 0.5 fails, its confidence being rounded to 50. *)
Theorem Py2_double_gate_is_single_threshold (d : Q) :
  (Py2.is_match d = true -> (d < 5 # 10)%Q) /\
  Py2.is_match d = Qltb 50 (confidence d) /\
  ((d <= Py2.last_accepted)%Q -> Py2.is_match d = true) /\
  ((Py2.first_rejected <= d)%Q ->
   Py2.is_match d = false /\ (confidence d <= 50)%Q) /\
  ((round64 d == d)%Q ->
   (Py2.is_match d = true <-> (d <= Py2.last_accepted)%Q)).
Proof.
  destruct Py2_neighbours as (_ & _ & H5 & H7).
  assert (Hlt : Py2.is_match d = true -> (d < Py2.first_rejected)%Q).
  { intros Hm. apply Qnot_le_lt. intros H.
    rewrite (@Py2_rejects_from d H) in Hm. discriminate. }
  split; [|split; [|split; [|split]]].
  - intros Hm. specialize (Hlt Hm). lra.
  - destruct (Qltb 50 (confidence d)) eqn:E.
    + apply Py2_is_match_spec. apply Qltb_lt in E. split; [|exact E].
      apply Qnot_le_lt. intros H.
      assert (H' : (Py2.first_rejected <= d)%Q) by lra.
      pose proof (@Py2_confidence_from d H'). lra.
    + unfold Py2.is_match. rewrite E. apply andb_false_r.
  - apply Py2_accepts_up_to.
  - intros H.
    split; [now apply Py2_rejects_from|now apply Py2_confidence_from].
  - apply Py2_float_accepted_iff.
Qed.

Lemma Py2_double_gate_is_single_threshold_witness :
  Py2.is_match (3 # 8) = true /\ Py2.is_match (1 # 2) = false /\
  Py2.is_match (9007199254740991 # 18014398509481984) = false.
Proof.
  split; [|split].
  - apply (proj2 (proj2 (proj2 (proj2
             (Py2_double_gate_is_single_threshold (3 # 8)))))).
    + vm_compute. reflexivity.
    + vm_compute. discriminate.
  - apply (proj1 (proj2 (proj2 (proj2
             (Py2_double_gate_is_single_threshold (1 # 2)))))).
    vm_compute. discriminate.
  - apply (proj1 (proj2 (proj2 (proj2
             (Py2_double_gate_is_single_threshold
                (9007199254740991 # 18014398509481984)))))).
    vm_compute. discriminate.
Defined.

(** X7.  The variants are ordered by strictness: a distance f6.py accepts
    is accepted by 2.py, and one 2.py accepts is within the tolerance of
    final2.py; so a capture that f6.py matches against the loaded
    references is matched by 2.py as well. *)
Theorem f6_is_the_strictest_matcher
    (Encoding : Type) (fd : Encoding -> Encoding -> Q)
    (refs : list (string * Encoding)) (p : string)
    (encs : list Encoding) (d : Disk) :
  (forall x, F6.is_match x = true -> Py2.is_match x = true) /\
  (forall x, Py2.is_match x = true -> Final2.is_match x = true) /\
  (fst (F6.compare_faces fd refs p encs d) = true ->
   fst (Py2.compare_faces fd refs p encs d) = true).
Proof.
  assert (H62 : forall x, F6.is_match x = true -> Py2.is_match x = true).
  { intros x H. apply Py2_accepts_up_to.
    assert (Hx : (x < F6.first_rejected)%Q).
    { apply Qnot_le_lt. intros Hge.
      rewrite (@F6_rejects_from x Hge) in H. discriminate. }
    assert (Hb : (F6.first_rejected <= Py2.last_accepted)%Q)
      by (vm_compute; discriminate).
    lra. }
  split; [exact H62|]. split.
  - intros x H. apply Final2_is_match_spec.
    assert (Hx : (x < Py2.first_rejected)%Q).
    { apply Qnot_le_lt. intros Hge.
      rewrite (@Py2_rejects_from x Hge) in H. discriminate. }
    assert (Hb : (Py2.first_rejected <= round64 (6 # 10))%Q)
      by (vm_compute; discriminate).
    lra.
  - unfold F6.compare_faces, Py2.compare_faces.
    destruct (os_path_exists p d); simpl; [|auto].
    destruct encs as [|cap others]; simpl; [auto|].
    rewrite !compare_with_found, !existsb_exists.
    intros (r & Hr & Hm). exists r. auto.
Qed.

Lemma f6_is_the_strictest_matcher_witness :
  fst (Py2.compare_faces line_distance three_profiles capture_1 [0%Q]
         one_capture) = true.
Proof.
  apply (proj2 (proj2 (@f6_is_the_strictest_matcher Q line_distance
                         three_profiles capture_1 [0%Q] one_capture))).
  vm_compute. reflexivity.
Defined.

(** ** A start attempt, case by case *)

Lemma start_vehicle_with_face_cases
    (Encoding : Type) (fd : Encoding -> Encoding -> Q)
    (refs : list (string * Encoding)) (dev : nat -> bool)
    (a : F6.Attempt Encoding) (s : State) :
  F6.start_vehicle_with_face fd refs dev a s =
  if negb (face_recognition_active s) then Ret tt s
  else if camera_lock s then Deadlock s
  else if negb (camera_opened s) then Deadlock (set_camera_lock true s)
  else
    let s0 := set_camera_lock false (set_camera_lock true s) in
    if negb (vehicle_stopped s) then Ret tt s0
    else match F6.wait_for_sensor true (F6.readings a) with
    | StillWaiting => Looping s0
    | Cancelled => Ret tt s0
    | Detected =>
      match F6.capture_image_with_face dev (F6.timestamp a) (F6.now a)
              (F6.shots a) s0 with
      | Ret None s1 => Ret tt s1
      | Ret (Some p) s1 =>
        if fst (F6.compare_faces fd refs p (F6.captured_encodings a) (disk s1))
        then Ret tt (set_sms_sent false
                       (post_sms VehicleStarted
                          (set_vehicle_stopped false
                             (start_motor_thread (os_remove p s1)))))
        else Ret tt (set_pending_authorization true
                       (if sms_sent_for_current_attempt s1 then s1
                        else set_sms_sent true
                               (post_sms UnauthorizedAttempt s1)))
      | Exn s1 => Exn s1
      | Deadlock s1 => Deadlock s1
      | Looping s1 => Looping s1
      end
    end.
Proof.
  unfold F6.start_vehicle_with_face, F6.ensure_camera, F6.initialize_camera,
    bind, gets, ret, modify, with_camera_lock.
  destruct (face_recognition_active s) eqn:Ha; simpl; [|reflexivity].
  destruct (camera_lock s) eqn:Hl; simpl; [reflexivity|].
  destruct (camera_opened s) eqn:Ho; simpl; [|reflexivity].
  destruct (vehicle_stopped s) eqn:Hv; simpl; [|reflexivity].
  rewrite Ha.
  destruct (F6.wait_for_sensor true (F6.readings a)); simpl; try reflexivity.
  destruct (F6.capture_image_with_face dev (F6.timestamp a) (F6.now a)
              (F6.shots a) _) as [[p|] s1|s1|s1|s1]; simpl; try reflexivity.
  destruct (F6.compare_faces fd refs p (F6.captured_encodings a) (disk s1))
    as [[|] trail]; simpl; [reflexivity|].
  destruct (sms_sent_for_current_attempt s1); reflexivity.
Qed.

Lemma wait_for_sensor_detected (active : bool) (l : list bool) :
  F6.wait_for_sensor active l = Detected -> In false l.
Proof.
  induction l as [|v l IH]; simpl; [discriminate|].
  destruct v; [|auto]. destruct active; [auto|discriminate].
Qed.

(** X8.  A start attempt starts at most one motor thread, and starts it
    only when it was active with the vehicle stopped, the sensor reported a
    finger, a frame passed the quality gate, and the first encoding of the
    capture passed the match test against a loaded reference. *)
Theorem motor_starts_only_after_a_match
    (Encoding : Type) (fd : Encoding -> Encoding -> Q)
    (refs : list (string * Encoding)) (dev : nat -> bool)
    (a : F6.Attempt Encoding) (s : State) :
  let s' := state_of (F6.start_vehicle_with_face fd refs dev a s) in
  motor_threads s' = motor_threads s \/
  (motor_threads s' = S (motor_threads s) /\
   face_recognition_active s = true /\
   vehicle_stopped s = true /\
   In false (F6.readings a) /\
   (exists sh fr, In sh (F6.shots a) /\ retrieved sh = Some fr /\
                  F6.inspect fr = Good) /\
   (exists cap others image ref,
      F6.captured_encodings a = cap :: others /\
      In (image, ref) refs /\
      F6.is_match (fd ref cap) = true)).
Proof.
  intros s'. subst s'. rewrite start_vehicle_with_face_cases.
  destruct (face_recognition_active s) eqn:Ha; simpl; [|now left].
  destruct (camera_lock s) eqn:Hl; simpl; [now left|].
  destruct (camera_opened s) eqn:Ho; simpl; [|now left].
  destruct (vehicle_stopped s) eqn:Hv; simpl; [|now left].
  destruct (F6.wait_for_sensor true (F6.readings a)) eqn:Hw; simpl;
    try (now left).
  apply wait_for_sensor_detected in Hw.
  match goal with
  | |- context [F6.capture_image_with_face dev ?ts ?now ?shots ?s0] =>
    pose proof (capture_keeps_controls dev ts now shots s0) as Hk;
    pose proof (capture_image_with_face_cases dev ts now shots s0) as Hc;
    destruct (F6.capture_image_with_face dev ts now shots s0)
      as [[p|] s1|s1|s1|s1]
  end; simpl in Hk; destruct Hk as [_ Hk]; simpl; try (now left).
  destruct (fst (F6.compare_faces fd refs p (F6.captured_encodings a)
                   (disk s1))) eqn:Hm; simpl;
    [|left; destruct (sms_sent_for_current_attempt s1); exact Hk].
  right. split; [now rewrite Hk|]. repeat split; auto.
  - cbv zeta in Hc. simpl in Hc. rewrite Ho in Hc.
    destruct (F6.exit _) eqn:Ex; try discriminate.
    destruct (attempt_loop_returned _ _ _ _ _ _ Ex)
      as (n & sh & fr & _ & Hn & Hr & Hg & _).
    exists sh, fr. split; [now apply nth_error_In in Hn|]. auto.
  - unfold F6.compare_faces in Hm.
    destruct (os_path_exists p (disk s1)); simpl in Hm; [|discriminate].
    destruct (F6.captured_encodings a) as [|cap others];
      simpl in Hm; [discriminate|].
    rewrite compare_with_found in Hm. apply existsb_exists in Hm.
    destruct Hm as ([image ref] & Hin & Hq). simpl in Hq.
    exists cap, others, image, ref. auto.
Qed.

(** X9.  A start request made while the vehicle is not stopped captures
    nothing, sends nothing and starts nothing: it only marks face
    recognition as active. *)
Theorem start_while_running_does_nothing
    (Encoding : Type) (fd : Encoding -> Encoding -> Q)
    (refs : list (string * Encoding)) (dev : nat -> bool)
    (a : F6.Attempt Encoding) (s : State) :
  vehicle_stopped s = false ->
  let s' := state_of (F6.start_motor_web fd refs dev a s) in
  face_recognition_active s' = true /\
  vehicle_stopped s' = false /\
  motor_running s' = motor_running s /\
  motor_threads s' = motor_threads s /\
  pending_authorization s' = pending_authorization s /\
  sms_sent_for_current_attempt s' = sms_sent_for_current_attempt s /\
  disk s' = disk s /\
  pins s' = pins s /\
  sms s' = sms s.
Proof.
  intros Hv s'. subst s'. unfold F6.start_motor_web, bind, modify.
  rewrite start_vehicle_with_face_cases. simpl.
  destruct (camera_lock s); simpl; [repeat split; auto|].
  destruct (camera_opened s); simpl; [|repeat split; auto].
  rewrite Hv. simpl. repeat split; auto.
Qed.

Lemma start_while_running_does_nothing_witness :
  vehicle_stopped cruising = false /\
  motor_threads
    (state_of (F6.start_motor_web line_distance two_profiles (fun _ => true)
                 owner cruising)) = 1%nat.
Proof.
  split; [reflexivity|].
  exact (proj1 (proj2 (proj2 (proj2
    (@start_while_running_does_nothing Q line_distance two_profiles
       (fun _ => true) owner cruising eq_refl))))).
Defined.

Lemma attempt_messages
    (Encoding : Type) (fd : Encoding -> Encoding -> Q)
    (refs : list (string * Encoding)) (dev : nat -> bool)
    (a : F6.Attempt Encoding) (s : State) :
  let s' := state_of (F6.start_vehicle_with_face fd refs dev a s) in
  sms s' = sms s \/
  (sms s' = sms s ++ [VehicleStarted] /\
   motor_threads s' = S (motor_threads s)) \/
  (sms s' = sms s ++ [UnauthorizedAttempt] /\
   sms_sent_for_current_attempt s = false /\
   sms_sent_for_current_attempt s' = true /\
   pending_authorization s' = true /\
   motor_threads s' = motor_threads s).
Proof.
  intros s'. subst s'. rewrite start_vehicle_with_face_cases.
  destruct (face_recognition_active s) eqn:Ha; simpl; [|now left].
  destruct (camera_lock s) eqn:Hl; simpl; [now left|].
  destruct (camera_opened s) eqn:Ho; simpl; [|now left].
  destruct (vehicle_stopped s) eqn:Hv; simpl; [|now left].
  destruct (F6.wait_for_sensor true (F6.readings a)) eqn:Hw; simpl;
    try (now left).
  match goal with
  | |- context [F6.capture_image_with_face dev ?ts ?now ?shots ?s0] =>
    pose proof (capture_leaves_controls_alone dev ts now shots s0) as Hk;
    destruct (F6.capture_image_with_face dev ts now shots s0)
      as [[p|] s1|s1|s1|s1]
  end; cbv zeta in Hk; simpl in Hk;
    destruct Hk as (_ & _ & _ & Hsent & _ & _ & Ht & _ & Hsms & _);
    simpl; try (now left).
  destruct (fst (F6.compare_faces fd refs p (F6.captured_encodings a)
                   (disk s1))); simpl.
  - right. left. rewrite Hsms, Ht. auto.
  - destruct (sms_sent_for_current_attempt s1) eqn:Hs1; simpl.
    + now left.
    + right. right. rewrite Hsms, Ht, <- Hsent. auto.
Qed.

(** X10.  A start attempt posts at most one message.  The alert about an
    unauthorized attempt is posted only when
    [sms_sent_for_current_attempt] was false, and the attempt then sets
    that flag and [pending_authorization]; with the flag already set an
    unmatched attempt posts nothing. *)
Theorem attempt_alerts_at_most_once
    (Encoding : Type) (fd : Encoding -> Encoding -> Q)
    (refs : list (string * Encoding)) (dev : nat -> bool)
    (a : F6.Attempt Encoding) (s : State) :
  let s' := state_of (F6.start_vehicle_with_face fd refs dev a s) in
  sms s' = sms s \/
  (sms s' = sms s ++ [VehicleStarted] /\
   motor_threads s' = S (motor_threads s)) \/
  (sms s' = sms s ++ [UnauthorizedAttempt] /\
   sms_sent_for_current_attempt s = false /\
   sms_sent_for_current_attempt s' = true /\
   pending_authorization s' = true /\
   motor_threads s' = motor_threads s).
Proof. exact (@attempt_messages Encoding fd refs dev a s). Qed.

(** ** Resolving, again and again *)

Lemma authorize_other (action : option string) (s : State) :
  action <> Some "yes" -> action <> Some "no" ->
  F6.authorize (POST action) s = Ret (Redirect "/") s.
Proof.
  intros Hy Hn. unfold F6.authorize, bind, gets, ret.
  destruct action as [a|]; [|reflexivity].
  destruct (String.eqb_spec a "yes") as [->|_]; [congruence|].
  destruct (String.eqb_spec a "no") as [->|_]; [congruence|reflexivity].
Qed.

(** X11.  POST /authorize with a missing action, or with one that is
    neither yes nor no, changes nothing and redirects to the main page. *)
Theorem authorize_ignores_other_actions (action : option string) (s : State) :
  action <> Some "yes" -> action <> Some "no" ->
  F6.authorize (POST action) s = Ret (Redirect "/") s.
Proof. exact (@authorize_other action s). Qed.

Lemma authorize_ignores_other_actions_witness :
  F6.authorize (POST (Some "maybe")) awaiting_owner
  = Ret (Redirect "/") awaiting_owner /\
  F6.authorize (POST None) awaiting_owner = Ret (Redirect "/") awaiting_owner.
Proof.
  split; apply authorize_ignores_other_actions; discriminate.
Defined.

Lemma serve_app (Encoding : Type) (fd : Encoding -> Encoding -> Q)
    (refs : list (string * Encoding)) (dev : nat -> bool)
    (l1 l2 : list (F6.Command Encoding)) (s : State) :
  F6.serve fd refs dev (l1 ++ l2) s
  = F6.serve fd refs dev l2 (F6.serve fd refs dev l1 s).
Proof. unfold F6.serve. apply fold_left_app. Qed.

(** X12.  Every approve starts another motor thread and posts another
    start message, whatever the state: [n] approvals in a row start [n]
    threads and leave the vehicle marked as running with nothing pending. *)
Theorem every_approve_starts_a_motor_thread
    (Encoding : Type) (fd : Encoding -> Encoding -> Q)
    (refs : list (string * Encoding)) (dev : nat -> bool)
    (n : nat) (s : State) :
  let s' := F6.serve fd refs dev
              (repeat (F6.Authorize Encoding (POST (Some "yes"))) n) s in
  motor_threads s' = (n + motor_threads s)%nat /\
  sms s' = sms s ++ repeat VehicleStarted n /\
  ((0 < n)%nat ->
   vehicle_stopped s' = false /\ pending_authorization s' = false).
Proof.
  revert s. induction n as [|n IH]; intros s s'; subst s'.
  - simpl. rewrite app_nil_r. repeat split; lia.
  - change (repeat (F6.Authorize Encoding (POST (Some "yes"))) (S n))
      with ([F6.Authorize Encoding (POST (Some "yes"))]
            ++ repeat (F6.Authorize Encoding (POST (Some "yes"))) n).
    rewrite serve_app.
    set (s1 := F6.serve fd refs dev [F6.Authorize Encoding (POST (Some "yes"))]
                 s).
    assert (H1 : motor_threads s1 = S (motor_threads s) /\
                 sms s1 = sms s ++ [VehicleStarted] /\
                 vehicle_stopped s1 = false /\
                 pending_authorization s1 = false).
    { subst s1. unfold F6.serve. simpl. rewrite authorize_yes.
      destruct (latest (disk s)); simpl; auto. }
    destruct H1 as (Ht & Hs & Hv & Hp).
    destruct (IH s1) as (IHt & IHs & IHv).
    rewrite IHt, IHs, Ht, Hs, <- app_assoc. simpl.
    split; [lia|]. split; [reflexivity|]. intros _.
    destruct n as [|n]; [simpl; auto|]. apply IHv. lia.
Qed.

(** ** Stopping *)

Lemma stop_motor_cases (dev : nat -> bool) (s : State) :
  let s1 := set_step [0; 0; 0; 0]%Z
              (set_face_recognition_active false
                 (set_vehicle_stopped true (set_motor_running false s))) in
  F6.stop_motor dev s =
  if camera_lock s then Deadlock s1
  else if camera_opened s
  then Ret tt (set_camera_lock false (set_camera_lock true s1))
  else Deadlock (set_camera_lock true s1).
Proof.
  unfold F6.stop_motor, F6.ensure_camera, F6.initialize_camera, bind, modify,
    gets, ret, with_camera_lock. simpl.
  destruct (camera_lock s); simpl; [reflexivity|].
  destruct (camera_opened s); reflexivity.
Qed.

(** X13.  With the camera open and its lock free, [stop_motor] returns with
    the motor flag down, the vehicle marked stopped, face recognition off
    and the coils released; a pending authorization, the SMS-sent flag,
    the capture directory and the messages are left as they were. *)
Theorem stop_motor_keeps_the_authorization (dev : nat -> bool) (s : State) :
  camera_lock s = false ->
  camera_opened s = true ->
  exists s',
    F6.stop_motor dev s = Ret tt s' /\
    motor_running s' = false /\
    vehicle_stopped s' = true /\
    face_recognition_active s' = false /\
    pins s' = pins s ++ [[0; 0; 0; 0]%Z] /\
    camera_lock s' = false /\
    camera_opened s' = true /\
    pending_authorization s' = pending_authorization s /\
    sms_sent_for_current_attempt s' = sms_sent_for_current_attempt s /\
    disk s' = disk s /\
    sms s' = sms s /\
    motor_threads s' = motor_threads s.
Proof.
  intros Hl Ho. eexists. split.
  - rewrite stop_motor_cases, Hl, Ho. reflexivity.
  - simpl. repeat split; auto.
Qed.

Lemma stop_motor_keeps_the_authorization_witness :
  camera_lock cruising = false /\ camera_opened cruising = true /\
  exists s',
    F6.stop_motor (fun _ => true) cruising = Ret tt s' /\
    motor_running s' = false /\ vehicle_stopped s' = true.
Proof.
  split; [reflexivity|]. split; [reflexivity|].
  destruct (stop_motor_keeps_the_authorization (fun _ => true) cruising
              eq_refl eq_refl) as (s' & H & Hm & Hv & _).
  exists s'. auto.
Defined.

(** X14.  With the camera closed, [stop_motor],
    [capture_image_with_face] and an active start attempt never return:
    each takes [camera_lock] and, finding the camera closed, calls
    [initialize_camera], which takes the lock again.  The lock is left held
    and the camera closed, so the same holds of every later call.
    [stop_motor] has by then cleared the motor flag and marked the vehicle
    stopped. *)
Theorem closed_camera_blocks_for_good
    (Encoding : Type) (fd : Encoding -> Encoding -> Q)
    (refs : list (string * Encoding)) (dev : nat -> bool)
    (a : F6.Attempt Encoding) (ts : string) (now : Z) (shots : list Shot)
    (s : State) :
  camera_opened s = false ->
  (exists s', F6.stop_motor dev s = Deadlock s' /\
              camera_lock s' = true /\ camera_opened s' = false /\
              motor_running s' = false /\ vehicle_stopped s' = true) /\
  (exists s', F6.capture_image_with_face dev ts now shots s = Deadlock s' /\
              camera_lock s' = true /\ camera_opened s' = false) /\
  (face_recognition_active s = true ->
   exists s', F6.start_vehicle_with_face fd refs dev a s = Deadlock s' /\
              camera_lock s' = true /\ camera_opened s' = false).
Proof.
  intros H. split; [|split].
  - rewrite stop_motor_cases.
    destruct (camera_lock s) eqn:Hl.
    + eexists. split; [reflexivity|]. simpl. auto.
    + rewrite H. eexists. split; [reflexivity|]. simpl. auto.
  - rewrite capture_image_with_face_cases.
    destruct (camera_lock s) eqn:Hl.
    + eexists. split; [reflexivity|]. simpl. auto.
    + rewrite H. eexists. split; [reflexivity|]. simpl. auto.
  - intros Ha. rewrite start_vehicle_with_face_cases, Ha. simpl.
    destruct (camera_lock s) eqn:Hl; [eauto|].
    rewrite H. simpl. eauto.
Qed.

Lemma closed_camera_blocks_for_good_witness :
  camera_opened cruising_blind = false /\
  exists s',
    F6.stop_motor (fun _ => true) cruising_blind = Deadlock s' /\
    camera_lock s' = true /\ camera_opened s' = false /\
    motor_running s' = false /\ vehicle_stopped s' = true.
Proof.
  split; [reflexivity|].
  exact (proj1 (@closed_camera_blocks_for_good Q line_distance two_profiles
                  (fun _ => true) owner "20250101_121000_000003" 300
                  [good_shot] cruising_blind eq_refl)).
Defined.

(** X15.  In final2.py [stop_motor] never returns: it calls
    [reinitialize_camera] while holding [camera_lock], which that function
    takes itself.  The motor flag is down and the vehicle is marked stopped
    by then, the lock stays held, and the reset of the authorization flags
    that follows in the source is never reached. *)
Theorem Final2_stop_motor_never_returns
    (device_opens device_reads : nat -> bool) (s : State) :
  exists s',
    Final2.stop_motor device_opens device_reads s = Deadlock s' /\
    motor_running s' = false /\
    vehicle_stopped s' = true /\
    pins s' = pins s ++ [[0; 0; 0; 0]%Z] /\
    (camera_lock s = false -> camera_lock s' = true) /\
    pending_authorization s' = pending_authorization s /\
    sms_sent_for_current_attempt s' = sms_sent_for_current_attempt s.
Proof.
  unfold Final2.stop_motor, Final2.reinitialize_camera, bind, modify, ret,
    with_camera_lock. simpl.
  destruct (camera_lock s) eqn:Hl; simpl; eexists;
    (split; [reflexivity|]); simpl; repeat split; auto; discriminate.
Qed.

(** ** The motor thread while nobody stops it *)

Lemma interleave_app (dev : nat -> bool) (l1 l2 : list F6.Turn) :
  forall pc s,
  F6.interleave dev (l1 ++ l2) pc s =
  let '(pc1, s1, k1) := F6.interleave dev l1 pc s in
  let '(pc2, s2, k2) := F6.interleave dev l2 pc1 s1 in
  (pc2, s2, (k1 + k2)%nat).
Proof.
  induction l1 as [|t l1 IH]; intros pc s.
  - simpl. destruct (F6.interleave dev l2 pc s) as [[pc2 s2] k2].
    reflexivity.
  - destruct t; simpl.
    + destruct (F6.motor_step dev pc s) as [[pc' s'] k]. rewrite IH.
      destruct (F6.interleave dev l1 pc' s') as [[pc1 s1] k1].
      destruct (F6.interleave dev l2 pc1 s1) as [[pc2 s2] k2].
      now rewrite Nat.add_assoc.
    + apply IH.
Qed.

(** One pass of the [for] loop, with the flag up. *)
Lemma motor_cycle_state (dev : nat -> bool) (s : State) :
  motor_running s = true ->
  F6.interleave dev (repeat F6.MotorTurn 34) F6.WhileTest s
  = (F6.WhileTest,
     fold_left (fun s' w => set_step w s') F6.step_sequence s, 8%nat).
Proof.
  intros H. destruct s. simpl in H. subst. vm_compute. reflexivity.
Qed.

Lemma fold_set_step (ws : list (list Z)) :
  forall s,
  pins (fold_left (fun s' w => set_step w s') ws s) = pins s ++ ws /\
  motor_running (fold_left (fun s' w => set_step w s') ws s)
  = motor_running s /\
  vehicle_stopped (fold_left (fun s' w => set_step w s') ws s)
  = vehicle_stopped s /\
  motor_threads (fold_left (fun s' w => set_step w s') ws s)
  = motor_threads s.
Proof.
  induction ws as [|w ws IH]; intros s; simpl.
  - rewrite app_nil_r. auto.
  - destruct (IH (set_step w s)) as (Hp & Hm & Hv & Ht).
    rewrite Hp, Hm, Hv, Ht. simpl. rewrite <- app_assoc. auto.
Qed.

Lemma motor_cycles (dev : nat -> bool) (k : nat) (s : State) :
  motor_running s = true ->
  exists s',
    F6.interleave dev (repeat F6.MotorTurn (34 * k)) F6.WhileTest s
    = (F6.WhileTest, s', (8 * k)%nat) /\
    pins s' = pins s ++ List.concat (repeat F6.step_sequence k) /\
    motor_running s' = true /\
    vehicle_stopped s' = vehicle_stopped s.
Proof.
  revert s. induction k as [|k IH]; intros s H.
  - exists s. simpl. rewrite app_nil_r. auto.
  - replace (34 * S k)%nat with (34 + 34 * k)%nat by lia.
    rewrite repeat_app, interleave_app, (@motor_cycle_state dev s H).
    destruct (fold_set_step F6.step_sequence s) as (Hp & Hm & Hv & _).
    destruct (IH (fold_left (fun s' w => set_step w s') F6.step_sequence s))
      as (s' & Hrun & Hp' & Hm' & Hv'); [now rewrite Hm|].
    exists s'. rewrite Hrun. split; [f_equal; lia|].
    rewrite Hp', Hp, Hv', Hv. simpl List.concat.
    rewrite <- app_assoc. auto.
Qed.

(** X16.  While the flag stays up, one pass of the motor thread's [for]
    loop takes 34 statements and writes the eight half-step patterns of
    [step_sequence] to the pins, in order and once each; [k] passes write
    the sequence [k] times over. *)
Theorem motor_cycles_through_step_sequence
    (dev : nat -> bool) (k : nat) (s : State) :
  motor_running s = true ->
  exists s',
    F6.interleave dev (repeat F6.MotorTurn (34 * k)) F6.WhileTest s
    = (F6.WhileTest, s', (8 * k)%nat) /\
    pins s' = pins s ++ List.concat (repeat F6.step_sequence k) /\
    motor_running s' = true /\
    vehicle_stopped s' = vehicle_stopped s.
Proof. exact (@motor_cycles dev k s). Qed.

Lemma motor_cycles_through_step_sequence_witness :
  exists s',
    F6.interleave (fun _ => true) (repeat F6.MotorTurn (34 * 2))
      F6.WhileTest cruising = (F6.WhileTest, s', (8 * 2)%nat) /\
    pins s' = pins cruising ++ List.concat (repeat F6.step_sequence 2).
Proof.
  destruct (motor_cycles_through_step_sequence (fun _ => true) 2 cruising
              eq_refl) as (s' & H & Hp & _).
  exists s'. auto.
Defined.

Lemma motor_step_flag_up (dev : nat -> bool) (pc : F6.MotorPC) (s : State) :
  F6.stepping pc = true ->
  (pc = F6.Entry \/ motor_running s = true) ->
  F6.stepping (fst (fst (F6.motor_step dev pc s))) = true /\
  motor_running (snd (fst (F6.motor_step dev pc s))) = true.
Proof.
  intros Hpc Hs.
  destruct pc; try discriminate; simpl;
    try (destruct Hs as [Hs|Hs]; [discriminate|]; rewrite ?Hs; simpl; auto).
  - auto.
  - destruct (nth_error F6.step_sequence i); simpl; auto.
Qed.

Lemma motor_runs_on (dev : nat -> bool) (n : nat) :
  forall pc s,
  F6.stepping pc = true ->
  (pc = F6.Entry \/ motor_running s = true) ->
  F6.stepping (fst (fst (F6.interleave dev (repeat F6.MotorTurn n) pc s)))
  = true /\
  ((0 < n)%nat \/ motor_running s = true ->
   motor_running (snd (fst (F6.interleave dev (repeat F6.MotorTurn n) pc s)))
   = true).
Proof.
  induction n as [|n IH]; intros pc s Hpc Hs.
  - simpl. split; [exact Hpc|]. intros [H|H]; [lia|exact H].
  - cbn [repeat F6.interleave].
    destruct (@motor_step_flag_up dev pc s Hpc Hs) as [Hpc1 Hs1].
    destruct (F6.motor_step dev pc s) as [[pc1 s1] k1]. simpl in Hpc1, Hs1.
    destruct (IH pc1 s1 Hpc1 (or_intror Hs1)) as [Hpc2 Hs2].
    destruct (F6.interleave dev (repeat F6.MotorTurn n) pc1 s1)
      as [[pc2 s2] k2]. simpl in *. split; [exact Hpc2|].
    intros _. apply Hs2. now right.
Qed.

(** X17.  As long as no stop command runs, the motor thread never gets to
    [stop_motor]: after any number of its statements it is still in its
    loop with the flag up, and it has written at least eight patterns for
    every 34 statements. *)
Theorem motor_runs_until_stopped
    (dev : nat -> bool) (n : nat) (s : State) :
  motor_running s = true ->
  let '(pc', s', steps) :=
    F6.interleave dev (repeat F6.MotorTurn n) F6.WhileTest s in
  pc' <> F6.CallStop /\ pc' <> F6.Finished /\
  motor_running s' = true /\
  (8 * (n / 34) <= steps)%nat.
Proof.
  intros H.
  pose proof (@motor_runs_on dev n F6.WhileTest s eq_refl (or_intror H))
    as [Hpc Hs].
  assert (Hsteps : (8 * (n / 34)
                    <= snd (F6.interleave dev (repeat F6.MotorTurn n)
                              F6.WhileTest s))%nat).
  { rewrite (Nat.div_mod_eq n 34) at 2.
    rewrite repeat_app, interleave_app.
    destruct (@motor_cycles dev (n / 34) s H)
      as (s1 & Hrun & _).
    rewrite Hrun.
    destruct (F6.interleave dev (repeat F6.MotorTurn (n mod 34)) F6.WhileTest
                s1) as [[pc2 s2] k2]. simpl. lia. }
  destruct (F6.interleave dev (repeat F6.MotorTurn n) F6.WhileTest s)
    as [[pc' s'] steps]. simpl in *.
  split; [intros ->; discriminate|]. split; [intros ->; discriminate|].
  split; [apply Hs; now right|exact Hsteps].
Qed.

Lemma motor_runs_until_stopped_witness :
  motor_running cruising = true /\
  let '(pc', s', steps) :=
    F6.interleave (fun _ => true) (repeat F6.MotorTurn 100) F6.WhileTest
      cruising in
  pc' <> F6.CallStop /\ pc' <> F6.Finished /\
  motor_running s' = true /\
  (8 * (100 / 34) <= steps)%nat.
Proof.
  split; [reflexivity|].
  exact (motor_runs_until_stopped (fun _ => true) 100 cruising eq_refl).
Defined.

Lemma motor_step_keeps_stopped_flag (dev : nat -> bool) (pc : F6.MotorPC)
    (s : State) :
  F6.stepping pc = true ->
  vehicle_stopped (snd (fst (F6.motor_step dev pc s))) = vehicle_stopped s.
Proof.
  intros Hpc. destruct pc; try discriminate; simpl; try reflexivity.
  - destruct (motor_running s); reflexivity.
  - destruct (nth_error F6.step_sequence i); reflexivity.
  - destruct (motor_running s); reflexivity.
Qed.

Lemma motor_runs_on_stopped_flag (dev : nat -> bool) (n : nat) :
  forall pc s,
  F6.stepping pc = true ->
  (pc = F6.Entry \/ motor_running s = true) ->
  vehicle_stopped
    (snd (fst (F6.interleave dev (repeat F6.MotorTurn n) pc s)))
  = vehicle_stopped s.
Proof.
  induction n as [|n IH]; intros pc s Hpc Hs; [reflexivity|].
  cbn [repeat F6.interleave].
  destruct (@motor_step_flag_up dev pc s Hpc Hs) as [Hpc1 Hs1].
  pose proof (@motor_step_keeps_stopped_flag dev pc s Hpc) as Hv.
  destruct (F6.motor_step dev pc s) as [[pc1 s1] k1]. simpl in Hpc1, Hs1, Hv.
  specialize (IH pc1 s1 Hpc1 (or_intror Hs1)).
  destruct (F6.interleave dev (repeat F6.MotorTurn n) pc1 s1)
    as [[pc2 s2] k2]. simpl in *. congruence.
Qed.

(** X18.  A stop command that runs before the motor thread has executed
    its first statement is lost: the thread raises [motor_running] again
    and keeps stepping for as long as no further stop arrives, while the
    vehicle stays marked as stopped. *)
Theorem stop_before_the_first_statement_is_lost
    (dev : nat -> bool) (n : nat) (s : State) :
  let '(pc', s', steps) :=
    F6.interleave dev (F6.StopCommand :: repeat F6.MotorTurn (S n))
      F6.Entry s in
  pc' <> F6.CallStop /\ pc' <> F6.Finished /\
  motor_running s' = true /\
  vehicle_stopped s' = true /\
  (8 * (n / 34) <= steps)%nat.
Proof.
  cbn [F6.interleave repeat F6.motor_step].
  set (s0 := set_motor_running true (state_of (F6.stop_motor dev s))).
  assert (Hm : motor_running s0 = true) by reflexivity.
  assert (Hv : vehicle_stopped s0 = true).
  { subst s0. rewrite stop_motor_cases.
    destruct (camera_lock s); [reflexivity|].
    destruct (camera_opened s); reflexivity. }
  pose proof (@motor_runs_on dev n F6.WhileTest s0 eq_refl (or_intror Hm))
    as [Hpc Hs].
  pose proof (@motor_runs_on_stopped_flag dev n F6.WhileTest s0 eq_refl
                (or_intror Hm)) as Hv'.
  assert (Hsteps : (8 * (n / 34)
                    <= snd (F6.interleave dev (repeat F6.MotorTurn n)
                              F6.WhileTest s0))%nat).
  { rewrite (Nat.div_mod_eq n 34) at 2.
    rewrite repeat_app, interleave_app.
    destruct (@motor_cycles dev (n / 34) s0 Hm) as (s1 & Hrun & _).
    rewrite Hrun.
    destruct (F6.interleave dev (repeat F6.MotorTurn (n mod 34)) F6.WhileTest
                s1) as [[pc2 s2] k2]. simpl. lia. }
  destruct (F6.interleave dev (repeat F6.MotorTurn n) F6.WhileTest s0)
    as [[pc' s'] steps]. simpl in *.
  split; [intros ->; discriminate|]. split; [intros ->; discriminate|].
  split; [apply Hs; now right|]. split; [congruence|exact Hsteps].
Qed.

(** ** Pruning, exactly *)

Lemma cleanup_exactly (d : Disk) :
  NoDup (glob d) ->
  ((List.length d <= 1)%nat -> F6.cleanup d = d) /\
  (d <> [] ->
   exists f,
     F6.cleanup d = [f] /\ In f d /\
     forall g, In g d -> StringOrder.leb (path g) (path f) = true).
Proof.
  intros Hnd. split.
  - intros Hlen. destruct d as [|f [|g d']]; [reflexivity|reflexivity|].
    simpl in Hlen. lia.
  - intros Hne.
    assert (Hs : sorted (glob d) <> []).
    { intros E. destruct d as [|f d']; [contradiction|].
      pose proof (Permutation_length (StringSort.Permuted_sort (glob (f :: d'))))
        as Hl.
      unfold sorted in E. rewrite E in Hl. discriminate. }
    pose proof (@app_removelast_last _ (sorted (glob d)) "" Hs) as Hsplit.
    remember (last (sorted (glob d)) "") as newest eqn:En.
    assert (Hsnd : NoDup (removelast (sorted (glob d)) ++ [newest])).
    { rewrite <- Hsplit.
      apply (Permutation_NoDup (StringSort.Permuted_sort (glob d)) Hnd). }
    assert (Hlast_in : In newest (glob d)).
    { apply (Permutation_in _ (Permutation_sym
                                 (StringSort.Permuted_sort (glob d)))).
      fold (sorted (glob d)). rewrite Hsplit.
      apply in_or_app. right. now left. }
    assert (Hlast_out : ~ In newest (all_but_last (sorted (glob d)))).
    { apply NoDup_remove_2 in Hsnd. rewrite app_nil_r in Hsnd. exact Hsnd. }
    unfold glob in Hlast_in. apply in_map_iff in Hlast_in.
    destruct Hlast_in as (f & Hf & Hin).
    assert (Hfc : In f (F6.cleanup d)).
    { apply cleanup_in. split; [exact Hin|]. now rewrite Hf. }
    clear En.
    exists f. split; [|split; [exact Hin|]].
    + pose proof (cleanup_short d Hnd) as Hlen.
      destruct (F6.cleanup d) as [|g [|h l]]; simpl in Hlen;
        [contradiction| |lia].
      destruct Hfc as [->|[]]. reflexivity.
    + intros g Hg. now apply (cleanup_keeps_greatest d).
Qed.

(** X19.  In a directory without duplicate names the pruning step keeps
    exactly one file of a non-empty directory, the one whose name is the
    greatest, and removes nothing when at most one capture is there. *)
Theorem cleanup_keeps_exactly_the_newest (d : Disk) :
  NoDup (glob d) ->
  ((List.length d <= 1)%nat -> F6.cleanup d = d) /\
  (d <> [] ->
   exists f,
     F6.cleanup d = [f] /\ In f d /\
     forall g, In g d -> StringOrder.leb (path g) (path f) = true).
Proof. exact (@cleanup_exactly d). Qed.

Lemma cleanup_keeps_exactly_the_newest_witness :
  NoDup (glob two_captures) /\
  exists f, F6.cleanup two_captures = [f] /\ In f two_captures.
Proof.
  assert (H : NoDup (glob two_captures)).
  { change (NoDup [capture_2; capture_1]).
    apply NoDup_cons; [|apply NoDup_cons; [intros []|apply NoDup_nil]].
    intros [E|[]]. vm_compute in E. discriminate E. }
  split; [exact H|].
  destruct (proj2 (cleanup_keeps_exactly_the_newest two_captures H))
    as (f & Hc & Hin & _); [discriminate|].
  exists f. auto.
Defined.

(** ** The log stream *)

Lemma stream_loop_sends_reads (n : nat) :
  forall reads initial_logs sent,
  (List.length reads <= n)%nat ->
  In sent (F6.stream_loop initial_logs reads) -> In sent reads.
Proof.
  induction n as [|n IH]; intros reads c sent Hn.
  - destruct reads; [intros []|simpl in Hn; lia].
  - destruct reads as [|t rest]; [intros []|]. simpl in Hn.
    cbn [F6.stream_loop].
    destruct (List.length c <? List.length t)%nat.
    + destruct rest as [|y [|c' rest'']]; simpl.
      * intros [].
      * intros [<-|[]]. auto.
      * intros [<-|H]; [auto|]. right. right. right.
        apply (IH rest'' c' sent); [simpl in Hn; lia|exact H].
    + intros H. right. apply (IH rest c sent); [lia|exact H].
Qed.

Lemma stream_loop_growth (n : nat) :
  forall reads initial_logs,
  (List.length reads <= n)%nat ->
  StronglySorted (fun a b => (List.length a <= List.length b)%nat)
    (initial_logs :: reads) ->
  Forall (fun sent => (List.length initial_logs < List.length sent)%nat)
    (F6.stream_loop initial_logs reads) /\
  StronglySorted (fun a b => (List.length a < List.length b)%nat)
    (F6.stream_loop initial_logs reads).
Proof.
  induction n as [|n IH]; intros reads c Hn Hs.
  - destruct reads; [split; constructor|simpl in Hn; lia].
  - destruct reads as [|t rest]; [split; constructor|]. simpl in Hn.
    apply StronglySorted_inv in Hs. destruct Hs as [Hs Hc].
    apply StronglySorted_inv in Hs. destruct Hs as [Hrest Ht].
    inversion Hc as [|? ? Hct Hcrest]; subst.
    cbn [F6.stream_loop].
    destruct (List.length c <? List.length t)%nat eqn:E.
    + apply Nat.ltb_lt in E.
      destruct rest as [|y [|c' rest'']].
      * split; constructor.
      * inversion Ht; subst. split; repeat constructor. lia.
      * inversion Ht as [|? ? Hty Ht']; subst.
        inversion Ht' as [|? ? Htc' _]; subst.
        apply StronglySorted_inv in Hrest. destruct Hrest as [Hrest Hy].
        inversion Hy as [|? ? Hyc' _]; subst.
        destruct (IH rest'' c') as [Hall Hsorted];
          [simpl in Hn; lia|exact Hrest|].
        split.
        -- constructor; [lia|].
           eapply Forall_impl; [|exact Hall]. simpl. intros; lia.
        -- constructor; [exact Hsorted|].
           eapply Forall_impl; [|exact Hall]. simpl. intros; lia.
    + apply (IH rest c); [lia|]. constructor; assumption.
Qed.

(** X20.  The log is only appended to, so no read of it is shorter than
    an earlier one.  Then, for one client, [stream_logs] never sends a log
    shorter than one it has sent, and after the first message it sends the
    log only when it has grown: from the second message on, every message
    is longer than all the messages of the loop before it.  (The first two
    messages can be the same log: the copy is taken before the first
    message is built.) *)
Theorem stream_logs_sends_only_growth (reads : list (list string)) :
  StronglySorted (fun a b => (List.length a <= List.length b)%nat) reads ->
  StronglySorted (fun a b => (List.length a <= List.length b)%nat)
    (F6.stream_logs reads) /\
  StronglySorted (fun a b => (List.length a < List.length b)%nat)
    (tl (F6.stream_logs reads)).
Proof.
  intros Hs. unfold F6.stream_logs.
  destruct reads as [|c [|y rest]]; [split; constructor..|].
  apply StronglySorted_inv in Hs. destruct Hs as [Hs Hc].
  apply StronglySorted_inv in Hs. destruct Hs as [Hrest Hy].
  inversion Hc as [|? ? _ Hcrest]; subst.
  destruct (@stream_loop_growth (List.length rest) rest c (le_n _))
    as [_ Hsorted]; [constructor; assumption|].
  split; [|exact Hsorted]. constructor.
  - clear - Hsorted. induction Hsorted as [|m l Hl IH Hm]; constructor;
      [exact IH|]. eapply Forall_impl; [|exact Hm]. simpl. intros; lia.
  - apply Forall_forall. intros m Hm.
    apply (@stream_loop_sends_reads (List.length rest) rest c m (le_n _))
      in Hm.
    rewrite Forall_forall in Hy. now apply Hy.
Qed.

Lemma stream_logs_sends_only_growth_witness :
  F6.stream_logs [["System Ready"]; ["System Ready"; "Vehicle started"];
                  ["System Ready"; "Vehicle started"];
                  ["System Ready"; "Vehicle started"; "Vehicle stopped"];
                  ["System Ready"; "Vehicle started"; "Vehicle stopped"]]
  = [["System Ready"; "Vehicle started"];
     ["System Ready"; "Vehicle started"; "Vehicle stopped"]] /\
  StronglySorted (fun a b => (List.length a < List.length b)%nat)
    (tl (F6.stream_logs
           [["System Ready"]; ["System Ready"; "Vehicle started"];
            ["System Ready"; "Vehicle started"];
            ["System Ready"; "Vehicle started"; "Vehicle stopped"];
            ["System Ready"; "Vehicle started"; "Vehicle stopped"]])).
Proof.
  split; [reflexivity|].
  apply stream_logs_sends_only_growth.
  repeat constructor.
Defined.

Lemma stream_loop_idle (reads : list (list string)) :
  forall initial_logs,
  Forall (fun r => (List.length r <= List.length initial_logs)%nat) reads ->
  F6.stream_loop initial_logs reads = [].
Proof.
  induction reads as [|t rest IH]; intros c Hall; [reflexivity|].
  inversion Hall as [|? ? Ht Hrest]; subst. cbn [F6.stream_loop].
  assert (E : (List.length c <? List.length t)%nat = false)
    by (apply Nat.ltb_ge; exact Ht).
  rewrite E. now apply IH.
Qed.

(** X21.  What is appended to the log while the generator is suspended at
    a [yield] is never sent on its own account.  The generator has sent
    [at_yield], and takes its copy [at_copy] only when it is resumed; as
    long as the log then grows no further than [at_copy], nothing more is
    sent, whatever [at_copy] holds beyond [at_yield]. *)
Theorem stream_logs_drops_lines_appended_at_a_yield
    (initial_logs at_test at_yield at_copy : list string)
    (later : list (list string)) :
  (List.length initial_logs < List.length at_test)%nat ->
  Forall (fun r => (List.length r <= List.length at_copy)%nat) later ->
  F6.stream_loop initial_logs (at_test :: at_yield :: at_copy :: later)
  = [at_yield] /\
  F6.stream_logs
    (initial_logs :: initial_logs :: at_test :: at_yield :: at_copy :: later)
  = [initial_logs; at_yield].
Proof.
  intros Hlt Hlater.
  assert (H : F6.stream_loop initial_logs
                (at_test :: at_yield :: at_copy :: later) = [at_yield]).
  { cbn [F6.stream_loop].
    assert (E : (List.length initial_logs <? List.length at_test)%nat = true)
      by (apply Nat.ltb_lt; exact Hlt).
    rewrite E. now rewrite (@stream_loop_idle later at_copy Hlater). }
  split; [exact H|]. unfold F6.stream_logs. now rewrite H.
Qed.

Lemma stream_logs_drops_lines_appended_at_a_yield_witness :
  F6.stream_logs
    [["System Ready"]; ["System Ready"];
     ["System Ready"; "Vehicle started"];
     ["System Ready"; "Vehicle started"];
     ["System Ready"; "Vehicle started"; "Vehicle stopped"];
     ["System Ready"; "Vehicle started"; "Vehicle stopped"];
     ["System Ready"; "Vehicle started"; "Vehicle stopped"]]
  = [["System Ready"]; ["System Ready"; "Vehicle started"]].
Proof.
  apply (@stream_logs_drops_lines_appended_at_a_yield
           ["System Ready"] ["System Ready"; "Vehicle started"]
           ["System Ready"; "Vehicle started"]
           ["System Ready"; "Vehicle started"; "Vehicle stopped"]
           [["System Ready"; "Vehicle started"; "Vehicle stopped"];
            ["System Ready"; "Vehicle started"; "Vehicle stopped"]]).
  - simpl. lia.
  - repeat constructor.
Defined.

(** ** What holds after any sequence of requests *)

Lemma authorize_get_state (s : State) :
  state_of (F6.authorize GET s) = s.
Proof.
  unfold F6.authorize, bind, gets, ret.
  destruct (latest (disk s)) as [f|]; [|reflexivity].
  destruct (pending_authorization s && os_path_exists (path f) (disk s));
    reflexivity.
Qed.

Lemma authorize_post_state (action : option string) (s : State) :
  let removed := match latest (disk s) with
                 | Some f => os_remove (path f) s
                 | None => s
                 end in
  state_of (F6.authorize (POST action) s) =
  match action with
  | Some a =>
    if String.eqb a "yes"
    then set_sms_sent false
           (set_pending_authorization false
              (post_sms VehicleStarted
                 (set_vehicle_stopped false (start_motor_thread removed))))
    else if String.eqb a "no"
    then set_sms_sent false (set_pending_authorization false removed)
    else s
  | None => s
  end.
Proof.
  destruct action as [a|];
    [|now rewrite authorize_other by discriminate].
  destruct (String.eqb_spec a "yes") as [->|Hy].
  - now rewrite authorize_yes.
  - destruct (String.eqb_spec a "no") as [->|Hn].
    + now rewrite authorize_no.
    + rewrite authorize_other; [reflexivity| |]; congruence.
Qed.

Lemma started_messages_app (s : State) (m : Sms) (s' : State) :
  sms s' = sms s ++ [m] ->
  F6.started_messages s'
  = (F6.started_messages s
     + match m with VehicleStarted => 1 | UnauthorizedAttempt => 0 end)%nat.
Proof.
  intros H. unfold F6.started_messages. rewrite H, filter_app, length_app.
  destruct m; reflexivity.
Qed.

Lemma attempt_reports_start
    (Encoding : Type) (fd : Encoding -> Encoding -> Q)
    (refs : list (string * Encoding)) (dev : nat -> bool)
    (a : F6.Attempt Encoding) (s : State) :
  let s' := state_of (F6.start_vehicle_with_face fd refs dev a s) in
  (motor_threads s' + F6.started_messages s
   = motor_threads s + F6.started_messages s')%nat.
Proof.
  intros s'. subst s'. rewrite start_vehicle_with_face_cases.
  unfold F6.started_messages.
  destruct (face_recognition_active s) eqn:Ha; simpl; [|lia].
  destruct (camera_lock s) eqn:Hl; simpl; [lia|].
  destruct (camera_opened s) eqn:Ho; simpl; [|lia].
  destruct (vehicle_stopped s) eqn:Hv; simpl; [|lia].
  destruct (F6.wait_for_sensor true (F6.readings a)) eqn:Hw; simpl;
    try lia.
  match goal with
  | |- context [F6.capture_image_with_face dev ?ts ?now ?shots ?s0] =>
    pose proof (capture_leaves_controls_alone dev ts now shots s0) as Hk;
    destruct (F6.capture_image_with_face dev ts now shots s0)
      as [[p|] s1|s1|s1|s1]
  end; cbv zeta in Hk; simpl in Hk;
    destruct Hk as (_ & _ & _ & _ & _ & _ & Ht & _ & Hsms & _);
    simpl; rewrite ?Hsms, ?Ht; try lia.
  destruct (fst (F6.compare_faces fd refs p (F6.captured_encodings a)
                   (disk s1))); simpl.
  - rewrite Hsms, Ht, filter_app, length_app. simpl. lia.
  - destruct (sms_sent_for_current_attempt s1); simpl;
      rewrite ?Hsms, ?Ht, ?filter_app, ?length_app; simpl; lia.
Qed.

Lemma handle_reports_starts
    (Encoding : Type) (fd : Encoding -> Encoding -> Q)
    (refs : list (string * Encoding)) (dev : nat -> bool)
    (c : F6.Command Encoding) (s : State) :
  motor_threads s = F6.started_messages s ->
  motor_threads (F6.handle fd refs dev c s)
  = F6.started_messages (F6.handle fd refs dev c s).
Proof.
  intros Inv. destruct c as [a| |req]; unfold F6.handle.
  - unfold F6.start_motor_web, bind, modify.
    pose proof (attempt_reports_start fd refs dev a
                  (set_face_recognition_active true s)) as H.
    cbv zeta in H.
    change (F6.started_messages (set_face_recognition_active true s))
      with (F6.started_messages s) in H.
    change (motor_threads (set_face_recognition_active true s))
      with (motor_threads s) in H.
    lia.
  - unfold F6.stop_motor_web. rewrite stop_motor_cases.
    unfold F6.started_messages in *.
    destruct (camera_lock s); [exact Inv|].
    destruct (camera_opened s); exact Inv.
  - destruct req as [|action]; [now rewrite authorize_get_state|].
    rewrite authorize_post_state. unfold F6.started_messages in *.
    destruct action as [a|]; [|exact Inv].
    destruct (String.eqb a "yes").
    + destruct (latest (disk s)); simpl in *;
        rewrite filter_app, length_app; simpl; lia.
    + destruct (String.eqb a "no"); [|exact Inv].
      destruct (latest (disk s)); exact Inv.
Qed.

(** X22.  Every motor start is reported: after any sequence of start,
    stop and authorization requests the number of motor threads started
    equals the number of start messages posted. *)
Theorem every_motor_start_is_reported
    (Encoding : Type) (fd : Encoding -> Encoding -> Q)
    (refs : list (string * Encoding)) (dev : nat -> bool)
    (cmds : list (F6.Command Encoding)) (s : State) :
  motor_threads s = F6.started_messages s ->
  motor_threads (F6.serve fd refs dev cmds s)
  = F6.started_messages (F6.serve fd refs dev cmds s).
Proof.
  revert s. unfold F6.serve.
  induction cmds as [|c cmds IH]; intros s Inv; simpl; [exact Inv|].
  apply IH. now apply handle_reports_starts.
Qed.

Lemma every_motor_start_is_reported_witness :
  motor_threads initial_state = F6.started_messages initial_state /\
  motor_threads
    (F6.serve line_distance two_profiles (fun _ => true)
       [F6.StartVehicle stranger; F6.StartVehicle owner; F6.StopVehicle Q;
        F6.Authorize Q (POST (Some "yes"))] initial_state)
  = F6.started_messages
      (F6.serve line_distance two_profiles (fun _ => true)
         [F6.StartVehicle stranger; F6.StartVehicle owner; F6.StopVehicle Q;
          F6.Authorize Q (POST (Some "yes"))] initial_state).
Proof.
  split; [reflexivity|].
  apply every_motor_start_is_reported. reflexivity.
Defined.

(** ** A pending authorization always has its capture *)

Lemma unlink_absent (p : string) (d : Disk) :
  os_path_exists p d = false -> unlink p d = d.
Proof.
  intros H. unfold unlink.
  induction d as [|f d IH]; simpl; [reflexivity|].
  unfold os_path_exists in H. simpl in H.
  apply orb_false_iff in H. destruct H as [Hf Hd].
  rewrite Hf. simpl. f_equal. now apply IH.
Qed.

Lemma cleanup_absent (p : string) (d : Disk) :
  os_path_exists p d = false -> os_path_exists p (F6.cleanup d) = false.
Proof.
  intros H. destruct (os_path_exists p (F6.cleanup d)) eqn:E; [|reflexivity].
  apply os_path_exists_true in E. unfold glob in E.
  apply in_map_iff in E. destruct E as (f & Hf & Hin).
  apply cleanup_in in Hin. destruct Hin as [Hin _].
  assert (Hp : os_path_exists p d = true).
  { apply os_path_exists_true. unfold glob. rewrite <- Hf. now apply in_map. }
  congruence.
Qed.

Lemma cleanup_NoDup (d : Disk) :
  NoDup (glob d) -> NoDup (glob (F6.cleanup d)).
Proof. intros H. unfold F6.cleanup. now apply fold_unlink_NoDup. Qed.

Lemma new_file_NoDup (p : string) (now : Z) (d : Disk) :
  NoDup (glob d) -> os_path_exists p d = false ->
  NoDup (glob (d ++ [mkCapFile p now])).
Proof.
  intros Hnd Hp. rewrite <- (unlink_absent p d Hp) at 1.
  now apply imwrite_NoDup.
Qed.

Lemma unlink_new_file (p : string) (now : Z) (d : Disk) :
  os_path_exists p d = false ->
  unlink p (d ++ [mkCapFile p now]) = d.
Proof.
  intros Hp. unfold unlink. rewrite filter_app. simpl.
  rewrite String.eqb_refl. simpl. rewrite app_nil_r.
  exact (unlink_absent p d Hp).
Qed.

(** With a fresh name, a capture leaves the pruned directory, with the new
    file added exactly when a path is returned. *)
Lemma capture_directory dev ts now shots s :
  os_path_exists (F6.capture_path ts) (disk s) = false ->
  let res := F6.capture_image_with_face dev ts now shots s in
  (disk (state_of res) = F6.cleanup (disk s) \/
   disk (state_of res)
   = F6.cleanup (disk s) ++ [mkCapFile (F6.capture_path ts) now]) /\
  (forall p s1, res = Ret (Some p) s1 ->
     p = F6.capture_path ts /\
     disk s1 = F6.cleanup (disk s) ++ [mkCapFile (F6.capture_path ts) now]).
Proof.
  intros Hfresh res. subst res.
  pose proof (cleanup_absent _ _ Hfresh) as Hc.
  rewrite capture_image_with_face_cases.
  destruct (camera_lock s); simpl; [split; [now left|discriminate]|].
  destruct (camera_opened s); simpl; [|split; [now left|discriminate]].
  destruct (attempt_loop_disk (F6.capture_path ts) now shots 0
              (F6.cleanup (disk s)) 0) as [Hr|[Hx Hr]].
  - destruct (F6.exit _) eqn:Ex; simpl; rewrite Hr;
      (split; [now left|]); try discriminate.
    exfalso.
    destruct (attempt_loop_returned _ _ _ _ _ _ Ex)
      as (_ & _ & _ & _ & _ & _ & _ & Hd).
    rewrite Hr in Hd. congruence.
  - rewrite Hx. simpl. rewrite Hr, (unlink_absent _ _ Hc).
    split; [now right|]. intros p s1 H. injection H as <- <-. auto.
Qed.

Lemma attempt_directory
    (Encoding : Type) (fd : Encoding -> Encoding -> Q)
    (refs : list (string * Encoding)) (dev : nat -> bool)
    (a : F6.Attempt Encoding) (s : State) :
  NoDup (glob (disk s)) ->
  os_path_exists (F6.capture_path (F6.timestamp a)) (disk s) = false ->
  let s' := state_of (F6.start_vehicle_with_face fd refs dev a s) in
  NoDup (glob (disk s')) /\
  (disk s <> [] -> disk s' <> []) /\
  (pending_authorization s' = true ->
   pending_authorization s = true \/ disk s' <> []).
Proof.
  intros Hnd Hfresh s'. subst s'. rewrite start_vehicle_with_face_cases.
  destruct (face_recognition_active s) eqn:Ha; simpl; [|auto].
  destruct (camera_lock s) eqn:Hl; simpl; [auto|].
  destruct (camera_opened s) eqn:Ho; simpl; [|auto].
  destruct (vehicle_stopped s) eqn:Hv; simpl; [|auto].
  destruct (F6.wait_for_sensor true (F6.readings a)); simpl; auto.
  set (s0 := set_camera_lock false (set_camera_lock true s)).
  assert (Hfresh0 : os_path_exists (F6.capture_path (F6.timestamp a))
                      (disk s0) = false) by exact Hfresh.
  pose proof (capture_directory dev (F6.timestamp a) (F6.now a) (F6.shots a)
                s0 Hfresh0) as Hdir.
  pose proof (capture_leaves_controls_alone dev (F6.timestamp a) (F6.now a)
                (F6.shots a) s0) as Hk.
  cbv zeta in Hdir, Hk.
  destruct Hk as (_ & _ & Hpend & _).
  change (disk s0) with (disk s) in Hdir.
  change (pending_authorization s0) with (pending_authorization s) in Hpend.
  pose proof (cleanup_NoDup (disk s) Hnd) as Hcn.
  pose proof (cleanup_absent _ _ Hfresh) as Hca.
  assert (Hne : disk s <> [] -> F6.cleanup (disk s) <> []).
  { intros H. destruct (proj2 (@cleanup_exactly (disk s) Hnd) H) as (f & -> & _).
    discriminate. }
  assert (Hboth : forall d',
    d' = F6.cleanup (disk s) \/
    d' = F6.cleanup (disk s)
         ++ [mkCapFile (F6.capture_path (F6.timestamp a)) (F6.now a)] ->
    NoDup (glob d') /\ (disk s <> [] -> d' <> [])).
  { intros d' [-> | ->]; split; auto.
    - now apply new_file_NoDup.
    - intros _ E. apply app_eq_nil in E. destruct E as [_ E]. discriminate. }
  destruct Hdir as [Hd Hret].
  destruct (F6.capture_image_with_face dev (F6.timestamp a) (F6.now a)
              (F6.shots a) s0) as [[p|] s1|s1|s1|s1];
    simpl in Hd, Hpend |- *;
    try (destruct (Hboth _ Hd) as [H1 H2]; split; [exact H1|];
         split; [exact H2|]; rewrite Hpend; auto).
  destruct (Hret p s1 eq_refl) as [-> Hd1].
  destruct (fst (F6.compare_faces fd refs (F6.capture_path (F6.timestamp a))
                   (F6.captured_encodings a) (disk s1))); simpl.
  - rewrite Hd1, (unlink_new_file _ _ _ Hca).
    split; [exact Hcn|]. split; [exact Hne|]. rewrite Hpend. auto.
  - assert (Hd1' : disk s1 <> []).
    { rewrite Hd1. intros E. apply app_eq_nil in E.
      destruct E as [_ E]. discriminate. }
    destruct (sms_sent_for_current_attempt s1); simpl;
      (split; [rewrite Hd1; now apply new_file_NoDup|]); auto.
Qed.

Lemma handle_keeps_capture
    (Encoding : Type) (fd : Encoding -> Encoding -> Q)
    (refs : list (string * Encoding)) (dev : nat -> bool)
    (c : F6.Command Encoding) (s : State) :
  NoDup (glob (disk s)) ->
  (pending_authorization s = true -> disk s <> []) ->
  F6.fresh_names fd refs dev [c] s ->
  NoDup (glob (disk (F6.handle fd refs dev c s))) /\
  (pending_authorization (F6.handle fd refs dev c s) = true ->
   disk (F6.handle fd refs dev c s) <> []).
Proof.
  intros Hnd Hp [Hfresh _]. destruct c as [a| |req]; unfold F6.handle.
  - unfold F6.start_motor_web, bind, modify.
    destruct (attempt_directory fd refs dev a
                (set_face_recognition_active true s) Hnd Hfresh)
      as (H1 & H2 & H3).
    split; [exact H1|]. intros H. destruct (H3 H) as [H'|H']; [|exact H'].
    apply H2. now apply Hp.
  - unfold F6.stop_motor_web. rewrite stop_motor_cases.
    destruct (camera_lock s); [auto|]. destruct (camera_opened s); auto.
  - destruct req as [|action]; [now rewrite authorize_get_state|].
    rewrite authorize_post_state.
    assert (Hrm : NoDup (glob (disk (match latest (disk s) with
                                     | Some f => os_remove (path f) s
                                     | None => s
                                     end)))).
    { destruct (latest (disk s)) as [f|]; [|exact Hnd].
      exact (@fold_unlink_NoDup [path f] (disk s) Hnd). }
    destruct action as [a|]; [|auto].
    destruct (String.eqb a "yes"); [split; [exact Hrm|discriminate]|].
    destruct (String.eqb a "no"); [split; [exact Hrm|discriminate]|auto].
Qed.

Lemma serve_keeps_capture
    (Encoding : Type) (fd : Encoding -> Encoding -> Q)
    (refs : list (string * Encoding)) (dev : nat -> bool)
    (cmds : list (F6.Command Encoding)) :
  forall s,
  NoDup (glob (disk s)) ->
  (pending_authorization s = true -> disk s <> []) ->
  F6.fresh_names fd refs dev cmds s ->
  NoDup (glob (disk (F6.serve fd refs dev cmds s))) /\
  (pending_authorization (F6.serve fd refs dev cmds s) = true ->
   disk (F6.serve fd refs dev cmds s) <> []).
Proof.
  unfold F6.serve.
  induction cmds as [|c cmds IH]; intros s Hnd Hp Hfresh; simpl; [auto|].
  destruct Hfresh as [Hc Hrest].
  destruct (@handle_keeps_capture Encoding fd refs dev c s Hnd Hp
              (conj Hc I)) as [H1 H2].
  now apply IH.
Qed.

(** X23.  After any sequence of start, stop and authorization requests in
    which every start request comes with a capture name not yet in the
    directory, a pending authorization has a capture on disk: the main page
    redirects to /authorize, /authorize shows the page instead of
    redirecting back, and /captured_image serves the newest capture. *)
Theorem pending_authorization_can_be_shown
    (Encoding : Type) (fd : Encoding -> Encoding -> Q)
    (refs : list (string * Encoding)) (dev : nat -> bool)
    (cmds : list (F6.Command Encoding)) (s : State) :
  NoDup (glob (disk s)) ->
  (pending_authorization s = true -> disk s <> []) ->
  F6.fresh_names fd refs dev cmds s ->
  let s' := F6.serve fd refs dev cmds s in
  pending_authorization s' = true ->
  exists f,
    latest (disk s') = Some f /\
    F6.index s' = Ret F6.ToAuthorize s' /\
    F6.authorize GET s' = Ret AuthorizePage s' /\
    F6.captured_image s' = Ret (Some f) s'.
Proof.
  intros Hnd Hp Hfresh s' Hpend.
  destruct (@serve_keeps_capture Encoding fd refs dev cmds s Hnd Hp Hfresh)
    as [_ Hne].
  fold s' in Hne. destruct (latest_some (Hne Hpend)) as (f & Hf).
  assert (Hex : os_path_exists (path f) (disk s') = true).
  { apply os_path_exists_true. unfold glob. apply in_map.
    now apply latest_in. }
  exists f. split; [exact Hf|].
  unfold F6.index, F6.authorize, F6.captured_image, bind, gets, ret.
  rewrite Hf, Hpend, Hex. auto.
Qed.

Lemma pending_authorization_can_be_shown_witness :
  exists f,
    latest (disk (F6.serve line_distance two_profiles (fun _ => true)
                    [F6.StartVehicle stranger; F6.StartVehicle owner]
                    initial_state)) = Some f /\
    path f = capture_1.
Proof.
  assert (Hnd : NoDup (glob (disk initial_state))) by constructor.
  assert (Hp : pending_authorization initial_state = true ->
               disk initial_state <> []) by discriminate.
  assert (Hfresh : F6.fresh_names line_distance two_profiles (fun _ => true)
                     [F6.StartVehicle stranger; F6.StartVehicle owner]
                     initial_state).
  { split; [reflexivity|]. split; [vm_compute; reflexivity|exact I]. }
  destruct (@pending_authorization_can_be_shown Q line_distance two_profiles
              (fun _ => true)
              [F6.StartVehicle stranger; F6.StartVehicle owner]
              initial_state Hnd Hp Hfresh) as (f & Hf & _).
  - vm_compute. reflexivity.
  - exists f. split; [exact Hf|].
    vm_compute in Hf. injection Hf as <-. reflexivity.
Defined.

(** ** An attempt and its answer *)

(** X24.  An attempt that ends with an authorization pending, made with
    nothing pending before and a clock later than every capture on disk,
    is closed by either answer of the owner: the capture written by the
    attempt is deleted and both flags are cleared.  After "no" the vehicle
    is stopped and no motor thread has been started since before the
    attempt; after "yes" exactly one has been and the vehicle is marked
    running. *)
Theorem answer_deletes_the_capture_of_the_attempt
    (Encoding : Type) (fd : Encoding -> Encoding -> Q)
    (refs : list (string * Encoding)) (dev : nat -> bool)
    (a : F6.Attempt Encoding) (s s' : State) :
  NoDup (glob (disk s)) ->
  (forall g, In g (disk s) -> (ctime g < F6.now a)%Z) ->
  pending_authorization s = false ->
  F6.start_vehicle_with_face fd refs dev a s = Ret tt s' ->
  pending_authorization s' = true ->
  (exists s2,
     F6.authorize (POST (Some "no")) s' = Ret (Redirect "/") s2 /\
     os_path_exists (F6.capture_path (F6.timestamp a)) (disk s2) = false /\
     pending_authorization s2 = false /\
     sms_sent_for_current_attempt s2 = false /\
     vehicle_stopped s2 = true /\
     motor_threads s2 = motor_threads s) /\
  (exists s3,
     F6.authorize (POST (Some "yes")) s' = Ret (Redirect "/") s3 /\
     os_path_exists (F6.capture_path (F6.timestamp a)) (disk s3) = false /\
     pending_authorization s3 = false /\
     sms_sent_for_current_attempt s3 = false /\
     vehicle_stopped s3 = false /\
     motor_threads s3 = S (motor_threads s)).
Proof.
  intros Hnd Hclock Hp Hrun Hp'.
  destruct (@unmatched_attempt_leaves_its_capture Encoding fd refs dev a s s'
              Hnd Hclock Hp Hrun Hp') as (Hv & Ht & f & Hf & Hpath).
  split.
  - eexists. split; [apply authorize_no|]. rewrite Hf. simpl.
    rewrite Hpath, Hv, Ht. split; [apply os_path_exists_unlink_same|auto].
  - eexists. split; [apply authorize_yes|]. rewrite Hf. simpl.
    rewrite Hpath, Ht. split; [apply os_path_exists_unlink_same|auto].
Qed.

Lemma answer_deletes_the_capture_of_the_attempt_witness :
  exists s2,
    F6.authorize (POST (Some "no"))
      (state_of (F6.start_vehicle_with_face line_distance two_profiles
                   (fun _ => true) stranger
                   (set_face_recognition_active true initial_state)))
    = Ret (Redirect "/") s2 /\
    disk s2 = [].
Proof.
  assert (Hnd : NoDup (glob (disk (set_face_recognition_active true
                                     initial_state)))) by constructor.
  assert (Hclock : forall g,
            In g (disk (set_face_recognition_active true initial_state)) ->
            (ctime g < F6.now stranger)%Z) by (intros g []).
  destruct (@answer_deletes_the_capture_of_the_attempt Q line_distance
              two_profiles (fun _ => true) stranger
              (set_face_recognition_active true initial_state)
              (state_of (F6.start_vehicle_with_face line_distance
                           two_profiles (fun _ => true) stranger
                           (set_face_recognition_active true initial_state)))
              Hnd Hclock eq_refl)
    as [(s2 & Hs2 & _) _].
  - vm_compute. reflexivity.
  - vm_compute. reflexivity.
  - exists s2. split; [exact Hs2|].
    vm_compute in Hs2. injection Hs2 as <-. reflexivity.
Defined.
